(** * bin/pipeline_run.py: the overlapping request/response scheduler

    A shallow embedding of [main] and of the [__main__] guard of
    [src/bin/pipeline_run.py].

    [main] is a coroutine that suspends at two places only: the direct
    [await run_pipeline(...)] of the first loop (line 109) and the
    [await asyncio.wait(aws, return_when=FIRST_COMPLETED)] of the second
    loop (line 149).  Between two suspensions the code runs without
    interleaving.  The embedding is therefore a machine whose states are
    the suspension points, driven by a schedule of events chosen by the
    environment: invocations of [run_pipeline] finishing (with a result,
    with an exception or in the cancelled state) and the interrupt signal.
    The effects of [main] on its collaborators (invocations started,
    [Task.cancel], results taken, records printed) are kept as a
    chronological trace. *)

From Stdlib Require Import List Arith Bool Lia ZArith.
From stdpp Require Import base list strings.
Import ListNotations.

(** ** Data of the collaborating library *)

(** [rhasspy3.pipeline.StopAfterDomain]; its values are the [choices] of
    [--stop-after] (line 40). *)
Inductive StopAfterDomain := WAKE | ASR | INTENT | HANDLE | TTS.

(** [Detection(name=...)], [Transcript(text=...)] (lines 74, 84). *)
Record Detection := mkDetection { det_name : string }.
Record Transcript := mkTranscript { text : string }.

(** [Event.from_dict(json.loads(...))] (line 89). *)
Record Event := mkEvent { ev_type : string; ev_data : string }.

(** The members of the union of line 86: an [Intent] or a [NotRecognized]
    made from an event (lines 91, 93). *)
Inductive IntentResult :=
| IntentFrom (e : Event)
| NotRecognizedFrom (e : Event).

(** [Handled(text=...)] (line 98); [NotHandled] is the other member of
    the union of line 95. *)
Inductive HandleResult :=
| Handled (t : string)
| NotHandled (t : string).

(** A file opened with [open(path, "rb")] (lines 79, 103). *)
Record FileObj := mkFileObj { fo_path : string }.

(** [Rhasspy.load(config)] (line 105). *)
Record Rhasspy := mkRhasspy { config_dir : string }.

(** Modelled from the spec: the class [PipelineResult] of
    [rhasspy3.pipeline] is not part of the source; section 3 (TurnResult)
    gives it an optional detection, transcript, intent result, handle
    result and synthesized-audio handle.  [main] reads [wake_detection]
    and [asr_transcript] and serializes the whole with [to_dict]. *)
Record PipelineResult := mkPipelineResult {
  pr_wake_detection : option Detection;
  pr_asr_transcript : option Transcript;
  pr_intent_result : option IntentResult;
  pr_handle_result : option HandleResult;
  pr_tts_audio : option string
}.

(** Exceptions, as far as [main] and the guard tell them apart. *)
Inductive Exn :=
| KeyboardInterrupt
| CancelledError
| Exception (msg : string).

Inductive Res (A : Type) :=
| Ok (a : A)
| Err (e : Exn).
Arguments Ok {A} a.
Arguments Err {A} e.

(** ** Arguments and set-up (lines 27-105) *)

(** The namespace returned by [parser.parse_args()]. *)
Record Args := mkArgs {
  config : string;
  pipeline : string;
  stop_after : option StopAfterDomain;
  wake_name : option string;
  asr_wav : option string;
  asr_text : option string;
  intent_json : option string;
  handle_text : option string;
  tts_wav : option string;
  samples_per_chunk : Z;
  asr_chunks_to_buffer : Z;
  loop : bool;
  debug : bool
}.

(** [if args.x:] on an optional string: [None] and the empty string are
    false. *)
Definition truthy (o : option string) : option string :=
  match o with
  | Some s => if String.eqb s EmptyString then None else Some s
  | None => None
  end.

(** What the set-up calls outside of this file.  The code of
    [Event.from_dict], [Intent.is_type], [Intent.from_event],
    [NotRecognized.is_type], [NotRecognized.from_event] and [Rhasspy.load]
    is not in [src/]: each is a parameter here, and each call that builds
    an object may raise instead. *)
Record Host := mkHost {
  open_rb : string -> Res FileObj;
  json_loads_event : string -> Res Event;
  intent_is_type : string -> bool;
  intent_from_event : Event -> Res IntentResult;
  not_recognized_is_type : string -> bool;
  not_recognized_from_event : Event -> Res IntentResult;
  rhasspy_load : string -> Res Rhasspy
}.

(** The locals of [main] that stay fixed once the loops start. *)
Record Locals := mkLocals {
  args : Args;
  wake_detection : option Detection;
  asr_wav_in : option FileObj;
  asr_transcript : option Transcript;
  intent_result : option IntentResult;
  handle_result : option HandleResult;
  tts_wav_in : option FileObj;
  rhasspy : Rhasspy
}.

Definition bind {A B} (x : Res A) (f : A -> Res B) : Res B :=
  match x with
  | Ok a => f a
  | Err e => Err e
  end.

Notation "'try!' x ':=' c 'in' k" := (bind c (fun x => k))
  (at level 10, x name, c at level 100, k at level 200).

Definition open_opt (h : Host) (p : option string) : Res (option FileObj) :=
  match truthy p with
  | Some path => try! f := open_rb h path in Ok (Some f)
  | None => Ok None
  end.

(** Lines 86-93. *)
Definition load_intent (h : Host) (j : option string)
  : Res (option IntentResult) :=
  match truthy j with
  | Some s =>
      try! intent_event := json_loads_event h s in
      if intent_is_type h (ev_type intent_event)
      then try! i := intent_from_event h intent_event in Ok (Some i)
      else if not_recognized_is_type h (ev_type intent_event)
      then try! i := not_recognized_from_event h intent_event in Ok (Some i)
      else Ok None
  | None => Ok None
  end.

(** Lines 71-105, in the order of the source. *)
Definition setup (h : Host) (a : Args) : Res Locals :=
  let wd := option_map mkDetection (truthy (wake_name a)) in
  try! wav := open_opt h (asr_wav a) in
  let tr := option_map mkTranscript (truthy (asr_text a)) in
  try! ir := load_intent h (intent_json a) in
  let hr := option_map Handled (truthy (handle_text a)) in
  try! tts := open_opt h (tts_wav a) in
  try! rh := rhasspy_load h (config a) in
  Ok (mkLocals a wd wav tr ir hr tts rh).

(** ** Invocations of [run_pipeline] *)

(** The arguments of one call of [run_pipeline]; a keyword that a call
    leaves out has the default [None]. *)
Record RunArgs := mkRunArgs {
  ra_rhasspy : Rhasspy;
  ra_pipeline : string;
  ra_samples_per_chunk : Z;
  ra_asr_chunks_to_buffer : Z;
  ra_wake_detection : option Detection;
  ra_asr_wav_in : option FileObj;
  ra_asr_transcript : option Transcript;
  ra_intent_result : option IntentResult;
  ra_handle_result : option HandleResult;
  ra_tts_wav_in : option FileObj;
  ra_stop_after : option StopAfterDomain
}.

(** Lines 109-121. *)
Definition single_kwargs (L : Locals) : RunArgs :=
  mkRunArgs (rhasspy L) (pipeline (args L))
    (samples_per_chunk (args L)) (asr_chunks_to_buffer (args L))
    (wake_detection L) (asr_wav_in L) (asr_transcript L)
    (intent_result L) (handle_result L) (tts_wav_in L)
    (stop_after (args L)).

(** Lines 132-141. *)
Definition request_kwargs (L : Locals) : RunArgs :=
  mkRunArgs (rhasspy L) (pipeline (args L))
    (samples_per_chunk (args L)) (asr_chunks_to_buffer (args L))
    (wake_detection L) (asr_wav_in L) (asr_transcript L)
    None None None
    (Some ASR).

(** Lines 177-188. *)
Definition response_kwargs (L : Locals) (r : PipelineResult) : RunArgs :=
  mkRunArgs (rhasspy L) (pipeline (args L))
    (samples_per_chunk (args L)) (asr_chunks_to_buffer (args L))
    (pr_wake_detection r) None (pr_asr_transcript r)
    (intent_result L) (handle_result L) (tts_wav_in L)
    (stop_after (args L)).

(** How an invocation was started: awaited directly (line 109), as
    [request_task] (line 131) or as [response_task] (line 176). *)
Inductive Role := Direct | Request | Response.

(** How an invocation ends: [Task.result()] returns, raises, or the task
    is in the cancelled state. *)
Inductive Outcome :=
| Returned (r : PipelineResult)
| Raised (e : Exn)
| Cancelled.

Inductive Status :=
| Pending
| Finished (o : Outcome).

Record Task := mkTask {
  role : Role;
  kwargs : RunArgs;
  cancel_requested : bool;
  status : Status
}.

(** ** The machine *)

(** What [main] does to its collaborators: an invocation is started, a
    task is asked to cancel, a result is taken into [pipeline_result], a
    record is printed. *)
Inductive Action :=
| Spawn (id : nat)
| Cancel (id : nat)
| Consume (id : nat)
| Print (r : PipelineResult).

(** The suspension points, with the locals that are live there. *)
Inductive Await :=
| AwaitCoroutine (c : nat)
| AwaitWait (request_task : nat) (response_task : option nat)
    (aws : list nat).

Record State := mkState {
  tasks : list Task;
  trace : list Action;
  pipeline_result : option PipelineResult;
  at_ : Await
}.

(** [main] is suspended, or an exception has come out of it. *)
Inductive Machine :=
| Running (s : State)
| Failed (e : Exn) (s : State).

Definition state_of (m : Machine) : State :=
  match m with
  | Running s => s
  | Failed _ s => s
  end.

Definition set_tasks (ts : list Task) (s : State) : State :=
  mkState ts (trace s) (pipeline_result s) (at_ s).

Definition set_at (a : Await) (s : State) : State :=
  mkState (tasks s) (trace s) (pipeline_result s) a.

Definition log (x : Action) (s : State) : State :=
  mkState (tasks s) (trace s ++ [x]) (pipeline_result s) (at_ s).

(** The records written to [sys.stdout], one per line. *)
Definition printed (x : Action) : list PipelineResult :=
  match x with
  | Print r => [r]
  | _ => []
  end.

Definition stdout (s : State) : list PipelineResult :=
  flat_map printed (trace s).

(** *** Task objects *)

Definition status_of (ts : list Task) (t : nat) : Status :=
  match ts !! t with
  | Some k => status k
  | None => Pending
  end.

(** [Task.done()] *)
Definition is_done (ts : list Task) (t : nat) : bool :=
  match status_of ts t with
  | Pending => false
  | Finished _ => true
  end.

(** [Task.cancelled()] *)
Definition cancelled (ts : list Task) (t : nat) : bool :=
  match status_of ts t with
  | Finished Cancelled => true
  | _ => false
  end.

(** [Task.result()], also the value of a direct [await]. *)
Definition result (ts : list Task) (t : nat) : Res PipelineResult :=
  match status_of ts t with
  | Finished (Returned r) => Ok r
  | Finished (Raised e) => Err e
  | Finished Cancelled => Err CancelledError
  | Pending => Err (Exception "InvalidStateError"%string)
  end.

(** [Task.cancel()]: a request; it does nothing to a task that is done. *)
Definition request_cancel (k : Task) : Task :=
  match status k with
  | Pending => mkTask (role k) (kwargs k) true Pending
  | Finished _ => k
  end.

Definition cancel (t : nat) (s : State) : State :=
  log (Cancel t) (set_tasks (alter request_cancel t (tasks s)) s).

(** [asyncio.create_task(run_pipeline(...))], and the coroutine object of
    line 109: the new invocation gets the next identity. *)
Definition spawn (r : Role) (kw : RunArgs) (s : State) : nat * State :=
  let id := length (tasks s) in
  (id, log (Spawn id) (set_tasks (tasks s ++ [mkTask r kw false Pending]) s)).

(** [pipeline_result = t.result()] once the result is known to be [r]. *)
Definition consume (t : nat) (r : PipelineResult) (s : State) : State :=
  log (Consume t) (mkState (tasks s) (trace s) (Some r) (at_ s)).

(** [json.dump(r.to_dict(), sys.stdout, ...); print("")] *)
Definition print (r : PipelineResult) (s : State) : State :=
  log (Print r) s.

(** [t in l] *)
Definition mem (t : nat) (l : list nat) : bool :=
  existsb (Nat.eqb t) l.

(** *** The code between two suspensions *)

(** Lines 108-121: one more turn of the first loop. *)
Definition start_single (L : Locals) (s : State) : State :=
  let '(c, s1) := spawn Direct (single_kwargs L) s in
  set_at (AwaitCoroutine c) s1.

(** Lines 131-149: start the request and build [aws]. *)
Definition start_request (L : Locals) (response_task : option nat)
    (s : State) : State :=
  let '(request_task, s1) := spawn Request (request_kwargs L) s in
  let aws :=
    [request_task] ++
    match response_task with
    | Some t => if negb (is_done (tasks s1) t) then [t] else []
    | None => []
    end in
  set_at (AwaitWait request_task response_task aws) s1.

(** Lines 169-189, then the next turn of the outer loop.  The inner loop
    has been left with [aws] empty; when line 169 raises, these are the
    locals that [main] ends with. *)
Definition after_wait (L : Locals) (request_task : nat)
    (response_task : option nat) (s : State) : Machine :=
  match result (tasks s) request_task with
  | Err e => Failed e (set_at (AwaitWait request_task response_task []) s)
  | Ok r =>
      let s1 := consume request_task r s in
      match pr_asr_transcript r with
      | None => Running (start_request L response_task (print r s1))
      | Some _ =>
          let '(t, s2) := spawn Response (response_kwargs L r) s1 in
          Running (start_request L (Some t) s2)
      end
  end.

(** Lines 151-156: the response task is among the done ones. *)
Definition response_done (t : nat) (s : State) : Res State :=
  try! s1 := (if negb (cancelled (tasks s) t)
               then try! r := result (tasks s) t in Ok (consume t r s)
               else Ok s) in
  match pipeline_result s1 with
  | Some r => Ok (print r s1)
  | None => Err (Exception "UnboundLocalError"%string)
  end.

(** Lines 149-167 from the moment [asyncio.wait] has set [done] and
    [pending]; it returns only when [done] is not empty. *)
Definition on_wait (L : Locals) (request_task : nat)
    (response_task : option nat) (aws : list nat) (s : State) : Machine :=
  let done := List.filter (is_done (tasks s)) aws in
  let pending := List.filter (fun t => negb (is_done (tasks s) t)) aws in
  match done with
  | [] => Running s
  | _ :: _ =>
      let after_response :=
        match response_task with
        | Some t =>
            if mem t done
            then try! s1 := response_done t s in Ok (s1, None)
            else Ok (s, Some t)
        | None => Ok (s, None)
        end in
      match after_response with
      | Err e => Failed e s
      | Ok (s1, response_task1) =>
          let s2 :=
            match response_task1 with
            | Some t =>
                if mem request_task done && mem t pending
                then cancel t s1
                else s1
            | None => s1
            end in
          match pending with
          | [] => after_wait L request_task response_task1 s2
          | _ :: _ =>
              Running (set_at (AwaitWait request_task response_task1 pending) s2)
          end
      end
  end.

(** Lines 109-127 from the moment the awaited coroutine has finished. *)
Definition on_await (L : Locals) (c : nat) (s : State) : Machine :=
  match status_of (tasks s) c with
  | Pending => Running s
  | Finished _ =>
      match result (tasks s) c with
      | Err e => Failed e s
      | Ok r =>
          let s1 := print r (consume c r s) in
          if negb (loop (args L))
          then Running (start_request L None s1)
          else Running (start_single L s1)
      end
  end.

Definition resume (L : Locals) (s : State) : Machine :=
  match at_ s with
  | AwaitCoroutine c => on_await L c s
  | AwaitWait request_task response_task aws =>
      on_wait L request_task response_task aws s
  end.

(** *** The environment *)

(** While [main] is suspended, invocations that are in flight finish. *)
Definition finish (o : Outcome) (k : Task) : Task :=
  match status k with
  | Pending => mkTask (role k) (kwargs k) (cancel_requested k) (Finished o)
  | Finished _ => k
  end.

(** An invocation that raises [KeyboardInterrupt] does not only end with
    that exception: asyncio lets [KeyboardInterrupt] (and [SystemExit])
    pass through the task and out of the event loop, so [asyncio.run]
    raises it at once and [main] is not resumed.  For the invocation
    awaited directly the exception passes through [main] itself, with the
    same end. *)
Definition raises_interrupt (o : Outcome) : bool :=
  match o with
  | Raised KeyboardInterrupt => true
  | _ => false
  end.

Definition pending_at (ts : list Task) (t : nat) : bool :=
  match ts !! t with
  | Some k => match status k with Pending => true | Finished _ => false end
  | None => false
  end.

(** A batch of invocations finishing, in order; one that is not pending
    any more is left as it is, and nothing finishes after one that
    interrupts. *)
Fixpoint finish_all (cs : list (nat * Outcome)) (ts : list Task)
  : list Task :=
  match cs with
  | [] => ts
  | (t, o) :: cs' =>
      if raises_interrupt o && pending_at ts t
      then alter (finish o) t ts
      else finish_all cs' (alter (finish o) t ts)
  end.

(** Some invocation of the batch that was still pending raises
    [KeyboardInterrupt]. *)
Fixpoint interrupted_by (cs : list (nat * Outcome)) (ts : list Task) : bool :=
  match cs with
  | [] => false
  | (t, o) :: cs' =>
      raises_interrupt o && pending_at ts t ||
      interrupted_by cs' (alter (finish o) t ts)
  end.

(** The tasks as [main] finds them when it is resumed after the batch; a
    batch that interrupts shows [main] nothing. *)
Definition deliver (cs : list (nat * Outcome)) (ts : list Task) : list Task :=
  if interrupted_by cs ts then ts else finish_all cs ts.

(** An event is a batch of invocations finishing before [main] is
    resumed, or the interrupt signal.  At the signal, and in a batch in
    which an invocation raises [KeyboardInterrupt], [asyncio.run] ends
    [main] at its suspension point, where [main] has no handler, and
    raises [KeyboardInterrupt]. *)
Inductive Ev :=
| Complete (cs : list (nat * Outcome))
| Interrupt.

Definition step (L : Locals) (m : Machine) (ev : Ev) : Machine :=
  match m with
  | Failed _ _ => m
  | Running s =>
      match ev with
      | Interrupt => Failed KeyboardInterrupt s
      | Complete cs =>
          if interrupted_by cs (tasks s)
          then Failed KeyboardInterrupt (set_tasks (finish_all cs (tasks s)) s)
          else resume L (set_tasks (deliver cs (tasks s)) s)
      end
  end.

(** *** [main] *)

(** Nothing started, nothing printed, [pipeline_result] unbound. *)
Definition init : State := mkState [] [] None (AwaitCoroutine 0).

(** [args.stop_after in ("wake", "asr")] *)
Definition in_wake_asr (o : option StopAfterDomain) : bool :=
  match o with
  | Some WAKE | Some ASR => true
  | _ => false
  end.

(** Lines 107-131: which loop is entered first. *)
Definition enter (L : Locals) : Machine :=
  if negb (loop (args L)) || in_wake_asr (stop_after (args L))
  then Running (start_single L init)
  else Running (start_request L None init).

(** [main] after the set-up, under a schedule of the environment. *)
Definition run (L : Locals) (sched : list Ev) : Machine :=
  fold_left (step L) sched (enter L).

Definition main (h : Host) (a : Args) (sched : list Ev) : Machine :=
  match setup h a with
  | Err e => Failed e init
  | Ok L => run L sched
  end.

(** *** The [__main__] guard (lines 192-196) *)

Record Exit := mkExit {
  exit_status : Z;
  error_report : option Exn;
  output : list PipelineResult
}.

(** [None]: the process is still running. *)
Definition script (h : Host) (a : Args) (sched : list Ev) : option Exit :=
  match main h a sched with
  | Running _ => None
  | Failed KeyboardInterrupt s => Some (mkExit 0 None (stdout s))
  | Failed e s => Some (mkExit 1 (Some e) (stdout s))
  end.

(** ** What the claims speak about *)

Definition role_of (ts : list Task) (t : nat) : option Role :=
  role <$> ts !! t.

Definition kwargs_of (ts : list Task) (t : nat) : option RunArgs :=
  kwargs <$> ts !! t.

(** The invocation whose completion the suspended [main] has still to
    process: the awaited coroutine or [request_task]. *)
Definition current (s : State) : nat :=
  match at_ s with
  | AwaitCoroutine c => c
  | AwaitWait request_task _ _ => request_task
  end.

Definition response_slot (s : State) : option nat :=
  match at_ s with
  | AwaitCoroutine _ => None
  | AwaitWait _ response_task _ => response_task
  end.

(** Invocations of a role that are in flight. *)
Definition is_pending (k : Task) : bool :=
  match status k with
  | Pending => true
  | Finished _ => false
  end.

Definition has_role (r : Role) (k : Task) : bool :=
  match r, role k with
  | Direct, Direct | Request, Request | Response, Response => true
  | _, _ => false
  end.

Definition in_flight (r : Role) (ts : list Task) : nat :=
  length (List.filter (fun k => has_role r k && is_pending k) ts).

(** The record that processing the end of invocation [i] puts on
    [sys.stdout], read off the task objects. *)
Definition record_of (ts : list Task) (i : nat) : list PipelineResult :=
  match role_of ts i, status_of ts i with
  | Some Direct, Finished (Returned r) => [r]
  | Some Request, Finished (Returned r) =>
      match pr_asr_transcript r with
      | None => [r]
      | Some _ => []
      end
  | Some Response, Finished (Returned r) => [r]
  | Some Response, Finished Cancelled =>
      match result ts (pred i) with
      | Ok r => [r]
      | Err _ => []
      end
  | _, _ => []
  end.

Definition records (ts : list Task) (n : nat) : list PipelineResult :=
  flat_map (record_of ts) (seq 0 n).

(** [KeyboardInterrupt] has come out of [main]. *)
Definition interrupted (m : Machine) : bool :=
  match m with
  | Failed KeyboardInterrupt _ => true
  | _ => false
  end.

(** ** Relations between task lists *)

(** What a move of the environment can do to one task: nothing, unless it
    is pending. *)
Definition advances (k k' : Task) : Prop :=
  role k' = role k /\ kwargs k' = kwargs k /\
  cancel_requested k' = cancel_requested k /\
  (status k = Pending \/ status k' = status k).

(** Two task lists that show the same roles and states below [n]. *)
Definition same_below (n : nat) (ts ts' : list Task) : Prop :=
  forall i, i < n ->
    role_of ts' i = role_of ts i /\ status_of ts' i = status_of ts i.

(** ** The invariant of the suspended [main] *)

(** A response invocation [i] continues the request invocation started
    just before it, which returned a result with a transcript. *)
Definition seeded (L : Locals) (ts : list Task) (i : nat) (kw : RunArgs)
  : Prop :=
  exists r, 1 <= i /\ role_of ts (pred i) = Some Request /\
    result ts (pred i) = Ok r /\ pr_asr_transcript r <> None /\
    kw = response_kwargs L r.

(** Every invocation was started with the arguments of its call site. *)
Definition wf_kwargs (L : Locals) (ts : list Task) : Prop :=
  forall i k, ts !! i = Some k ->
    match role k with
    | Direct => kwargs k = single_kwargs L
    | Request => kwargs k = request_kwargs L
    | Response => seeded L ts i (kwargs k)
    end.

(** The live locals at a suspension point. *)
Definition shape (s : State) : Prop :=
  match at_ s with
  | AwaitCoroutine c =>
      role_of (tasks s) c = Some Direct /\ status_of (tasks s) c = Pending
  | AwaitWait rq rs aws =>
      role_of (tasks s) rq = Some Request /\
      match rs with
      | None => aws = [rq] /\ status_of (tasks s) rq = Pending
      | Some t =>
          rq = S t /\ role_of (tasks s) t = Some Response /\
          status_of (tasks s) t = Pending /\
          (aws = [rq; t] /\ status_of (tasks s) rq = Pending \/
           aws = [t] /\ is_done (tasks s) rq = true) /\
          exists r, pipeline_result s = Some r /\
                    result (tasks s) (pred t) = Ok r
      end
  end.

(** The invocations below [n] have been processed. *)
Record Mid (L : Locals) (s : State) (n : nat) : Prop := {
  mid_done : forall i, i < n -> is_done (tasks s) i = true;
  mid_kwargs : wf_kwargs L (tasks s);
  mid_stdout : stdout s = records (tasks s) n
}.

(** The number of invocations whose end has been processed. *)
Definition processed (s : State) : nat :=
  match response_slot s with
  | Some t => t
  | None => current s
  end.

Record Inv (L : Locals) (s : State) : Prop := {
  inv_length : length (tasks s) = S (current s);
  inv_shape : shape s;
  inv_mid : Mid L s (processed s)
}.

Ltac simpl_state :=
  cbn [tasks trace pipeline_result at_ current processed response_slot
       set_at log set_tasks consume print cancel spawn fst snd] in *.

(** ** Concrete collaborators and results *)

Definition host_ok : Host :=
  mkHost (fun p => Ok (mkFileObj p))
         (fun j => Ok (mkEvent "intent" j))
         (String.eqb "intent")
         (fun e => Ok (IntentFrom e))
         (String.eqb "not-recognized")
         (fun e => Ok (NotRecognizedFrom e))
         (fun c => Ok (mkRhasspy c)).

(** No option given. *)
Definition args_default : Args :=
  mkArgs "config" "default" None None None None None None None 1024 0
         false false.

(** [--loop] *)
Definition args_loop : Args :=
  mkArgs "config" "default" None None None None None None None 1024 0
         true false.

(** [--loop --asr-text hello] *)
Definition args_loop_text : Args :=
  mkArgs "config" "default" None None None (Some "hello"%string) None None
         None 1024 0 true false.

(** [--loop --stop-after handle --asr-text hello --handle-text done] *)
Definition args_loop_skip : Args :=
  mkArgs "config" "default" (Some HANDLE) None None (Some "hello"%string)
         None (Some "done"%string) None 1024 0 true false.


(** Requests that heard a sentence, one that heard nothing, and a
    finished reply. *)
Definition heard : PipelineResult :=
  mkPipelineResult (Some (mkDetection "porcupine"))
                   (Some (mkTranscript "turn on the light")) None None None.

Definition heard_again : PipelineResult :=
  mkPipelineResult (Some (mkDetection "porcupine"))
                   (Some (mkTranscript "turn it off")) None None None.

Definition silence : PipelineResult :=
  mkPipelineResult (Some (mkDetection "porcupine")) None None None None.

Definition replied : PipelineResult :=
  mkPipelineResult (Some (mkDetection "porcupine"))
                   (Some (mkTranscript "turn on the light")) None
                   (Some (Handled "done")) (Some "reply.wav"%string).

Definition tts_error : Exn := Exception "tts failed".

(** Schedules: what finishes at each suspension of [main]. *)
Definition sched_reply_then_silence : list Ev :=
  [Complete [(0, Returned heard)]; Complete [(1, Returned replied)];
   Complete [(2, Returned silence)]].

Definition sched_barge_in : list Ev :=
  [Complete [(0, Returned heard)]; Complete [(2, Returned heard_again)]].

Definition sched_two_turns : list Ev :=
  [Complete [(0, Returned silence)]; Complete [(1, Returned silence)]].

(** The request of the third turn under [--loop --asr-text hello]. *)
Definition later_request : Task :=
  mkTask Request
    (mkRunArgs (mkRhasspy "config") "default" 1024 0 None None
       (Some (mkTranscript "hello")) None None None (Some ASR))
    false Pending.

Definition sched_cancelled : list Ev :=
  sched_barge_in ++ [Complete [(1, Cancelled)]].

(** The locals that the set-up builds from [args_loop]. *)
Definition locals_loop : Locals :=
  mkLocals args_loop None None None None None None (mkRhasspy "config").

Definition sched_first_turn : list Ev := [Complete [(0, Returned heard)]].

Definition sched_cancel_then_error : list Ev :=
  sched_barge_in ++ [Complete [(1, Raised tts_error)]].

Definition sched_silence : list Ev := [Complete [(0, Returned silence)]].

(** The request of the second turn hears nothing while the response of
    the first is still pending. *)
Definition sched_silent_barge_in : list Ev :=
  sched_first_turn ++ [Complete [(2, Returned silence)]].

(** The response of the first turn returns and the request of the second
    raises before [main] is resumed. *)
Definition sched_reply_and_error : list Ev :=
  sched_first_turn ++
  [Complete [(1, Returned replied); (2, Raised tts_error)]].

(** ** Further notions *)

(** Whether [Task.cancel] has been called on task [t] while it was
    pending. *)
Definition cancel_flag (ts : list Task) (t : nat) : bool :=
  match ts !! t with
  | Some k => cancel_requested k
  | None => false
  end.

(** The tasks that have been asked to cancel are responses, they are the
    tasks of the [Cancel] actions, and the response in the slot has been
    asked to cancel exactly when the request is done. *)
Record Barge (s : State) : Prop := {
  barge_role : forall i, cancel_flag (tasks s) i = true ->
                 role_of (tasks s) i = Some Response;
  barge_trace : forall i, In (Cancel i) (trace s) <->
                  cancel_flag (tasks s) i = true;
  barge_slot : forall rq t aws, at_ s = AwaitWait rq (Some t) aws ->
                 cancel_flag (tasks s) t = is_done (tasks s) rq
}.

(** The part of [Barge] that does not look at the suspension point. *)
Definition Flags (s : State) : Prop :=
  (forall i, cancel_flag (tasks s) i = true ->
     role_of (tasks s) i = Some Response) /\
  (forall i, In (Cancel i) (trace s) <-> cancel_flag (tasks s) i = true).

(** What was started after request [i] had returned: a response from its
    result if that carries a transcript, the next request if not. *)
Definition follows (L : Locals) (ts : list Task) (i : nat) : Prop :=
  exists r, result ts i = Ok r /\
    match pr_asr_transcript r with
    | Some _ =>
        role_of ts (S i) = Some Response /\
        kwargs_of ts (S i) = Some (response_kwargs L r)
    | None => role_of ts (S i) = Some Request
    end.

(** Every request whose completion has been processed was followed up. *)
Definition Turns (L : Locals) (s : State) : Prop :=
  forall i, i < current s -> role_of (tasks s) i = Some Request ->
    follows L (tasks s) i.

(** [main] is in its first loop, every invocation so far was awaited
    directly, and all but the current one have returned. *)
Definition Repeat (s : State) : Prop :=
  exists c, at_ s = AwaitCoroutine c /\
    (forall i, i < c -> exists r, result (tasks s) i = Ok r) /\
    (forall i, i < length (tasks s) -> role_of (tasks s) i = Some Direct).

(** [--loop --stop-after asr] *)
Definition args_loop_asr : Args :=
  mkArgs "config" "default" (Some ASR) None None None None None None 1024 0
         true false.

Definition locals_loop_asr : Locals :=
  mkLocals args_loop_asr None None None None None None (mkRhasspy "config").

Definition sched_three_asr : list Ev :=
  [Complete [(0, Returned heard)]; Complete [(1, Returned silence)];
   Complete [(2, Returned heard_again)]].

(** The arguments with every option that was given as the empty string
    taken away. *)
Definition blank (a : Args) : Args :=
  mkArgs (config a) (pipeline a) (stop_after a)
         (truthy (wake_name a)) (truthy (asr_wav a)) (truthy (asr_text a))
         (truthy (intent_json a)) (truthy (handle_text a))
         (truthy (tts_wav a))
         (samples_per_chunk a) (asr_chunks_to_buffer a) (loop a) (debug a).

(** The arguments without [--intent-json]. *)
Definition without_intent_json (a : Args) : Args :=
  mkArgs (config a) (pipeline a) (stop_after a)
         (wake_name a) (asr_wav a) (asr_text a) None (handle_text a)
         (tts_wav a)
         (samples_per_chunk a) (asr_chunks_to_buffer a) (loop a) (debug a).

(** Two sets of locals under which [main] calls [run_pipeline] with the
    same arguments and takes the same branches. *)
Definition same_invocations (L L' : Locals) : Prop :=
  single_kwargs L = single_kwargs L' /\ loop (args L) = loop (args L').

(** A host for which the intent JSON is an event of another type. *)
Definition host_other_event : Host :=
  mkHost (fun p => Ok (mkFileObj p))
         (fun j => Ok (mkEvent "transcript" j))
         (String.eqb "intent")
         (fun e => Ok (IntentFrom e))
         (String.eqb "not-recognized")
         (fun e => Ok (NotRecognizedFrom e))
         (fun c => Ok (mkRhasspy c)).

(** [--loop --intent-json {...}] *)
Definition args_loop_json : Args :=
  mkArgs "config" "default" None None None None (Some "{...}"%string) None
         None 1024 0 true false.

(** * Proofs *)

(** ** Task objects under the moves of the environment and of [main] *)

Lemma advances_refl k : advances k k.
Proof. repeat split; auto. Qed.

Lemma advances_finish o k : advances k (finish o k).
Proof.
  unfold advances, finish. destruct (status k) eqn:E; simpl; auto.
Qed.

Lemma advances_trans k1 k2 k3 :
  advances k1 k2 -> advances k2 k3 -> advances k1 k3.
Proof.
  intros (R1 & K1 & C1 & S1) (R2 & K2 & C2 & S2).
  repeat split; try congruence.
  destruct S1 as [S1|S1]; [now left|].
  destruct S2 as [S2|S2]; [left|right]; congruence.
Qed.

Lemma Forall2_advances_refl ts : Forall2 advances ts ts.
Proof. induction ts; constructor; auto using advances_refl. Qed.

Lemma Forall2_advances_alter o t ts :
  Forall2 advances ts (alter (finish o) t ts).
Proof.
  revert t. induction ts as [|k ts IH]; intros [|t]; simpl; constructor;
    auto using advances_refl, advances_finish, Forall2_advances_refl.
  apply IH.
Qed.

Lemma Forall2_advances_trans ts1 ts2 ts3 :
  Forall2 advances ts1 ts2 -> Forall2 advances ts2 ts3 ->
  Forall2 advances ts1 ts3.
Proof.
  intros H. revert ts3. induction H; intros ts3 H3; inversion H3; subst;
    constructor; eauto using advances_trans.
Qed.

Lemma finish_all_advances cs ts : Forall2 advances ts (finish_all cs ts).
Proof.
  revert ts. induction cs as [|[t o] cs IH]; intros ts; simpl.
  - apply Forall2_advances_refl.
  - destruct (raises_interrupt o && pending_at ts t).
    + apply Forall2_advances_alter.
    + eapply Forall2_advances_trans;
        [apply Forall2_advances_alter|apply IH].
Qed.

Lemma deliver_advances cs ts : Forall2 advances ts (deliver cs ts).
Proof.
  unfold deliver. destruct (interrupted_by cs ts).
  - apply Forall2_advances_refl.
  - apply finish_all_advances.
Qed.

(** A batch after which [main] finds a task changed has not interrupted. *)
Lemma deliver_moved cs (ts : list Task) (i : nat) :
  status_of (deliver cs ts) i <> status_of ts i ->
  interrupted_by cs ts = false.
Proof.
  unfold deliver. destruct (interrupted_by cs ts); [|reflexivity].
  intros H. now destruct H.
Qed.

Section Advances.
Variables ts ts' : list Task.
Hypothesis Hadv : Forall2 advances ts ts'.

Lemma advances_length : length ts' = length ts.
Proof. symmetry. eapply Forall2_length; eauto. Qed.

Lemma advances_lookup i k :
  ts !! i = Some k -> exists k', ts' !! i = Some k' /\ advances k k'.
Proof. intros Hk. eapply Forall2_lookup_l in Hk; eauto. Qed.

Lemma advances_lookup_None i : ts !! i = None -> ts' !! i = None.
Proof.
  rewrite !lookup_ge_None, advances_length. auto.
Qed.

Lemma advances_role_of i : role_of ts' i = role_of ts i.
Proof.
  unfold role_of. destruct (ts !! i) as [k|] eqn:E.
  - destruct (advances_lookup _ _ E) as (k' & -> & (R & _)). simpl.
    now rewrite R.
  - now rewrite (advances_lookup_None _ E).
Qed.

Lemma advances_status_of i :
  status_of ts i = Pending \/ status_of ts' i = status_of ts i.
Proof.
  unfold status_of. destruct (ts !! i) as [k|] eqn:E.
  - destruct (advances_lookup _ _ E) as (k' & -> & (_ & _ & _ & S)). auto.
  - now left.
Qed.

Lemma advances_done i : is_done ts i = true -> status_of ts' i = status_of ts i.
Proof.
  unfold is_done. intros Hd.
  destruct (advances_status_of i) as [E|E]; [|exact E].
  rewrite E in Hd. discriminate.
Qed.

Lemma advances_result_done i : is_done ts i = true -> result ts' i = result ts i.
Proof. intros Hd. unfold result. now rewrite advances_done. Qed.

End Advances.


(** [Task.cancel] leaves role, arguments and status as they are. *)
Lemma lookup_request_cancel (ts : list Task) (t : nat) (i : nat) :
  alter request_cancel t ts !! i = None /\ ts !! i = None \/
  exists k k', alter request_cancel t ts !! i = Some k' /\ ts !! i = Some k /\
    role k' = role k /\ kwargs k' = kwargs k /\ status k' = status k.
Proof.
  destruct (ts !! i) as [k|] eqn:E.
  - right. exists k. destruct (decide (t = i)) as [->|Hne].
    + exists (request_cancel k). rewrite list_lookup_alter_eq, E. simpl.
      unfold request_cancel. destruct (status k) eqn:Es; simpl; auto.
    + exists k. rewrite list_lookup_alter_ne, E by assumption. auto.
  - left. split; [|reflexivity].
    apply lookup_ge_None. rewrite length_alter. now apply lookup_ge_None.
Qed.

Lemma role_of_cancel (ts : list Task) (t : nat) (i : nat) :
  role_of (alter request_cancel t ts) i = role_of ts i.
Proof.
  unfold role_of.
  destruct (lookup_request_cancel ts t i)
    as [[-> ->]|(k & k' & -> & -> & R & _)]; simpl; congruence.
Qed.

Lemma status_of_cancel (ts : list Task) (t : nat) (i : nat) :
  status_of (alter request_cancel t ts) i = status_of ts i.
Proof.
  unfold status_of.
  destruct (lookup_request_cancel ts t i)
    as [[-> ->]|(k & k' & -> & -> & _ & _ & S)]; simpl; congruence.
Qed.

(** A new invocation is pending and leaves the older ones as they are. *)
Lemma role_of_app_l (ts : list Task) (k : Task) (i : nat) :
  i < length ts -> role_of (ts ++ [k]) i = role_of ts i.
Proof. intros H. unfold role_of. now rewrite lookup_app_l. Qed.

Lemma status_of_app_l (ts : list Task) (k : Task) (i : nat) :
  i < length ts -> status_of (ts ++ [k]) i = status_of ts i.
Proof. intros H. unfold status_of. now rewrite lookup_app_l. Qed.

Lemma lookup_app_new (ts : list Task) k : (ts ++ [k]) !! length ts = Some k.
Proof. rewrite lookup_app_r, Nat.sub_diag by lia. reflexivity. Qed.

Lemma role_of_app_new (ts : list Task) (k : Task) : role_of (ts ++ [k]) (length ts) = Some (role k).
Proof. unfold role_of. now rewrite lookup_app_new. Qed.

Lemma status_of_app_new (ts : list Task) (k : Task) : status_of (ts ++ [k]) (length ts) = status k.
Proof. unfold status_of. now rewrite lookup_app_new. Qed.

Lemma status_of_ge (ts : list Task) (i : nat) : length ts <= i -> status_of ts i = Pending.
Proof.
  intros H. unfold status_of. now rewrite (proj2 (lookup_ge_None ts i) H).
Qed.

Lemma record_of_same (n : nat) (ts : list Task) (ts' : list Task) (i : nat) :
  same_below n ts ts' -> i < n -> record_of ts' i = record_of ts i.
Proof.
  intros H Hi. unfold record_of, result.
  destruct (H i Hi) as [-> ->].
  destruct (H (pred i) ltac:(lia)) as [_ ->]. reflexivity.
Qed.

Lemma records_same (n : nat) (ts : list Task) (ts' : list Task) :
  same_below n ts ts' -> records ts' n = records ts n.
Proof.
  intros H. unfold records.
  rewrite !flat_map_concat_map. f_equal.
  apply map_ext_in. intros i Hi. apply in_seq in Hi.
  eapply record_of_same; eauto. lia.
Qed.

Lemma records_S (ts : list Task) (n : nat) : records ts (S n) = records ts n ++ record_of ts n.
Proof.
  unfold records. rewrite seq_S, flat_map_app. simpl.
  now rewrite app_nil_r.
Qed.

Lemma record_of_pending (ts : list Task) (i : nat) : status_of ts i = Pending -> record_of ts i = [].
Proof.
  intros H. unfold record_of. rewrite H. now destruct (role_of ts i) as [[]|].
Qed.

Lemma same_below_app (n : nat) (ts : list Task) (k : Task) :
  n <= length ts -> same_below n ts (ts ++ [k]).
Proof.
  intros Hn i Hi.
  rewrite role_of_app_l, status_of_app_l by lia. auto.
Qed.

Lemma same_below_cancel (n : nat) (ts : list Task) (t : nat) :
  same_below n ts (alter request_cancel t ts).
Proof.
  intros i _. now rewrite role_of_cancel, status_of_cancel.
Qed.

Lemma same_below_advances (n : nat) (ts : list Task) (ts' : list Task) :
  Forall2 advances ts ts' ->
  (forall i, i < n -> is_done ts i = true) ->
  same_below n ts ts'.
Proof.
  intros Hadv Hd i Hi. split.
  - now apply advances_role_of.
  - apply advances_done; auto.
Qed.

Lemma stdout_log x s : stdout (log x s) = stdout s ++ printed x.
Proof.
  unfold stdout, log. simpl. rewrite flat_map_app. simpl.
  now rewrite app_nil_r.
Qed.

Lemma result_Ok_done (ts : list Task) (i : nat) r :
  result ts i = Ok r -> is_done ts i = true.
Proof.
  unfold result, is_done. destruct (status_of ts i) as [|[]]; congruence.
Qed.

Lemma result_Ok_status (ts : list Task) (i : nat) r :
  result ts i = Ok r <-> status_of ts i = Finished (Returned r).
Proof.
  unfold result. destruct (status_of ts i) as [|[]]; split; congruence.
Qed.

Lemma seeded_keep L (ts ts' : list Task) i kw :
  (forall j, role_of ts' j = role_of ts j) ->
  (forall j, is_done ts j = true -> status_of ts' j = status_of ts j) ->
  seeded L ts i kw -> seeded L ts' i kw.
Proof.
  intros Hr Hs (r & Hi & Hrole & Hres & Ht & Hkw).
  exists r. repeat split; auto.
  - now rewrite Hr.
  - unfold result. rewrite Hs; eauto using result_Ok_done.
Qed.

Lemma wf_kwargs_keep L (ts ts' : list Task) :
  (forall i k', ts' !! i = Some k' ->
     exists k, ts !! i = Some k /\ role k' = role k /\ kwargs k' = kwargs k) ->
  (forall j, role_of ts' j = role_of ts j) ->
  (forall j, is_done ts j = true -> status_of ts' j = status_of ts j) ->
  wf_kwargs L ts -> wf_kwargs L ts'.
Proof.
  intros Hl Hr Hs Hwf i k' Hk'.
  destruct (Hl _ _ Hk') as (k & Hk & R & K).
  specialize (Hwf _ _ Hk). rewrite R, K.
  destruct (role k); auto. eapply seeded_keep; eauto.
Qed.

Lemma wf_kwargs_advances L (ts ts' : list Task) :
  Forall2 advances ts ts' -> wf_kwargs L ts -> wf_kwargs L ts'.
Proof.
  intros Hadv. apply wf_kwargs_keep.
  - intros i k' Hk'.
    destruct (Forall2_lookup_r _ _ _ _ _ Hadv Hk') as (k & Hk & (R & K & _)).
    eauto.
  - intros j. now apply advances_role_of.
  - intros j. now apply advances_done.
Qed.

Lemma wf_kwargs_cancel L (ts : list Task) (t : nat) :
  wf_kwargs L ts -> wf_kwargs L (alter request_cancel t ts).
Proof.
  apply wf_kwargs_keep.
  - intros i k' Hk'.
    destruct (lookup_request_cancel ts t i)
      as [[E _]|(k & k2 & E & Hk & R & K & _)]; [congruence|].
    exists k. rewrite E in Hk'. inversion Hk'; subst. auto.
  - intros j. apply role_of_cancel.
  - intros j _. apply status_of_cancel.
Qed.

Lemma wf_kwargs_app L (ts : list Task) (k : Task) :
  wf_kwargs L ts ->
  match role k with
  | Direct => kwargs k = single_kwargs L
  | Request => kwargs k = request_kwargs L
  | Response => seeded L ts (length ts) (kwargs k)
  end ->
  wf_kwargs L (ts ++ [k]).
Proof.
  intros Hwf Hk.
  assert (Hkeep : forall i kw, i <= length ts ->
            seeded L ts i kw -> seeded L (ts ++ [k]) i kw).
  { intros i kw Hi (r & H1 & Hrole & Hres & Ht & Hkw).
    exists r. repeat split; auto.
    - rewrite role_of_app_l; auto. lia.
    - unfold result. rewrite status_of_app_l by lia. exact Hres. }
  intros i k0 Hk0.
  destruct (Nat.lt_ge_cases i (length ts)) as [Hi|Hi].
  - rewrite lookup_app_l in Hk0 by assumption.
    specialize (Hwf _ _ Hk0). destruct (role k0); auto.
    apply Hkeep; auto. lia.
  - rewrite lookup_app_r in Hk0 by assumption.
    destruct (i - length ts) as [|d] eqn:Ed; simpl in Hk0; [|discriminate].
    inversion Hk0; subst k0. assert (i = length ts) as -> by lia.
    destruct (role k); auto.
Qed.

Lemma is_done_status (ts : list Task) (i : nat) :
  is_done ts i = true <-> exists o, status_of ts i = Finished o.
Proof.
  unfold is_done. destruct (status_of ts i); split; eauto; try congruence.
  intros [o Ho]. discriminate.
Qed.

Lemma is_done_false (ts : list Task) (i : nat) :
  is_done ts i = false <-> status_of ts i = Pending.
Proof.
  unfold is_done. destruct (status_of ts i); split; congruence.
Qed.

Lemma Mid_deliver L s cs n :
  Mid L s n -> Mid L (set_tasks (deliver cs (tasks s)) s) n.
Proof.
  intros [Hd Hk Ho]. pose proof (deliver_advances cs (tasks s)) as Hadv.
  constructor; simpl.
  - intros i Hi. unfold is_done. rewrite (advances_done _ _ Hadv); auto.
    apply Hd, Hi.
  - eapply wf_kwargs_advances; eauto.
  - change (stdout (set_tasks (deliver cs (tasks s)) s)) with (stdout s).
    rewrite Ho. symmetry. apply records_same.
    apply same_below_advances; auto.
Qed.

(** Lines 151-156 put the record of the response on [sys.stdout]. *)
Lemma response_done_Mid L s t r0 s1 :
  Mid L s t ->
  role_of (tasks s) t = Some Response ->
  is_done (tasks s) t = true ->
  pipeline_result s = Some r0 ->
  result (tasks s) (pred t) = Ok r0 ->
  response_done t s = Ok s1 ->
  tasks s1 = tasks s /\ at_ s1 = at_ s /\ Mid L s1 (S t) /\
  stdout s1 = stdout s ++ record_of (tasks s) t.
Proof.
  intros [Hd Hk Ho] Hrole Hdone Hpr Hseed Hrd.
  assert (Hrec : forall s', tasks s' = tasks s ->
            stdout s' = stdout s ++ record_of (tasks s) t ->
            Mid L s' (S t)).
  { intros s' Ht Hs. constructor; rewrite Ht.
    - intros i Hi. destruct (decide (i = t)) as [->|]; auto. apply Hd. lia.
    - exact Hk.
    - rewrite Hs, Ho, records_S. reflexivity. }
  unfold response_done in Hrd. unfold cancelled, result in Hrd.
  unfold record_of. rewrite Hrole.
  apply is_done_status in Hdone as [o Hst]. rewrite Hst in *.
  destruct o as [r|e|]; simpl in Hrd.
  - inversion Hrd; subst s1; clear Hrd. simpl.
    assert (E : stdout (print r (consume t r s)) = stdout s ++ [r]).
    { unfold print. rewrite stdout_log. unfold consume.
      rewrite stdout_log. simpl. now rewrite app_nil_r. }
    split; [reflexivity|]. split; [reflexivity|]. split; [|exact E].
    apply Hrec; auto. unfold record_of. now rewrite Hrole, Hst.
  - discriminate.
  - rewrite Hpr in Hrd. inversion Hrd; subst s1; clear Hrd. simpl.
    rewrite Hseed.
    assert (E : stdout (print r0 s) = stdout s ++ [r0]).
    { unfold print. now rewrite stdout_log. }
    split; [reflexivity|]. split; [reflexivity|]. split; [|exact E].
    apply Hrec; auto. unfold record_of. now rewrite Hrole, Hst, Hseed.
Qed.

(** Lines 169-189 and 131-149 once every awaited task is done. *)
Lemma after_wait_Inv L s rq s' :
  Mid L s rq ->
  length (tasks s) = S rq ->
  role_of (tasks s) rq = Some Request ->
  after_wait L rq None s = Running s' ->
  Inv L s'.
Proof.
  intros [Hd Hk Ho] Hlen Hrole Haw.
  unfold after_wait in Haw.
  destruct (result (tasks s) rq) as [r|e] eqn:Hres; [|discriminate].
  pose proof (proj1 (result_Ok_status _ _ _) Hres) as Hst.
  assert (Hdone : forall i, i < S rq -> is_done (tasks s) i = true).
  { intros i Hi. destruct (decide (i = rq)) as [->|]; [|apply Hd; lia].
    eapply result_Ok_done; eauto. }
  assert (Hrec : records (tasks s) (S rq) = stdout s ++
            match pr_asr_transcript r with None => [r] | Some _ => [] end).
  { rewrite records_S, Ho. f_equal. unfold record_of.
    now rewrite Hrole, Hst. }
  destruct (pr_asr_transcript r) as [tr|] eqn:Htr.
  - (* a transcript: the response is started, then the next request *)
    inversion Haw; subst s'; clear Haw.
    unfold start_request. simpl_state.
    rewrite !length_app, Hlen. simpl length. rewrite Nat.add_1_r.
    set (k1 := mkTask Response _ _ _). set (k2 := mkTask Request _ _ _).
    assert (Hl1 : length (tasks s ++ [k1]) = S (S rq)).
    { rewrite length_app, Hlen. simpl. lia. }
    assert (E1 : status_of ((tasks s ++ [k1]) ++ [k2]) (S rq) = Pending).
    { rewrite status_of_app_l by lia.
      rewrite <- Hlen. now rewrite status_of_app_new. }
    unfold is_done. rewrite E1. simpl.
    assert (Hw : wf_kwargs L ((tasks s ++ [k1]) ++ [k2])).
    { apply wf_kwargs_app; [apply wf_kwargs_app; auto|reflexivity].
      simpl. exists r. rewrite Hlen. simpl.
      split; [lia|]. split; [auto|]. split; [auto|]. split; [congruence|auto]. }
    constructor; simpl_state.
    + rewrite length_app, Hl1. simpl. lia.
    + unfold shape; simpl_state. split; [|split; [|split; [|split; [|split]]]].
      * rewrite <- Hl1. now rewrite role_of_app_new.
      * reflexivity.
      * rewrite role_of_app_l by lia.
        rewrite <- Hlen. now rewrite role_of_app_new.
      * exact E1.
      * left. split; auto.
        rewrite <- Hl1. now rewrite status_of_app_new.
      * exists r. split; auto. unfold result. simpl.
        rewrite !status_of_app_l by lia.
        now rewrite Hst.
    + constructor; simpl_state; auto.
      * intros i Hi. unfold is_done.
        rewrite !status_of_app_l by lia.
        apply Hdone, Hi.
      * unfold stdout; simpl. rewrite !flat_map_app; simpl.
        rewrite !app_nil_r. fold (stdout s).
        rewrite (records_same (S rq) (tasks s)).
        -- rewrite Hrec. now rewrite app_nil_r.
        -- intros i Hi.
           rewrite !role_of_app_l, !status_of_app_l by lia. auto.
  - (* no transcript: the record is printed, the next request started *)
    inversion Haw; subst s'; clear Haw.
    unfold start_request. simpl_state. rewrite Hlen.
    set (k2 := mkTask Request _ _ _).
    constructor; simpl_state.
    + rewrite length_app, Hlen. simpl. lia.
    + unfold shape; simpl_state. rewrite <- Hlen.
      rewrite role_of_app_new, status_of_app_new. auto.
    + constructor; simpl_state.
      * intros i Hi. unfold is_done. rewrite status_of_app_l by lia.
        apply Hdone, Hi.
      * apply wf_kwargs_app; auto. reflexivity.
      * unfold stdout; simpl. rewrite !flat_map_app; simpl.
        rewrite !app_nil_r. fold (stdout s).
        rewrite (records_same (S rq) (tasks s)).
        -- now rewrite Hrec.
        -- apply same_below_app. lia.
Qed.

Lemma Mid_ext L s s' n :
  tasks s' = tasks s -> stdout s' = stdout s -> Mid L s n -> Mid L s' n.
Proof. intros Ht Ho [Hd Hk Hs]. constructor; rewrite ?Ht, ?Ho; auto. Qed.

Lemma Mid_cancel L s t n : Mid L s n -> Mid L (cancel t s) n.
Proof.
  intros [Hd Hk Hs]. constructor; simpl_state.
  - intros i Hi. unfold is_done. rewrite status_of_cancel. apply Hd, Hi.
  - now apply wf_kwargs_cancel.
  - unfold stdout in *. simpl. rewrite flat_map_app. simpl.
    rewrite app_nil_r, Hs. symmetry. apply records_same, same_below_cancel.
Qed.

(** Lines 131-149 with an empty response slot. *)
Lemma start_request_Inv L s :
  Mid L s (length (tasks s)) -> Inv L (start_request L None s).
Proof.
  intros [Hd Hk Hs]. unfold start_request. simpl_state.
  set (k := mkTask Request _ _ _).
  constructor; simpl_state.
  - rewrite length_app. simpl. lia.
  - unfold shape; simpl_state.
    rewrite role_of_app_new, status_of_app_new. auto.
  - constructor; simpl_state.
    + intros i Hi. unfold is_done. rewrite status_of_app_l by lia.
      apply Hd, Hi.
    + apply wf_kwargs_app; auto. reflexivity.
    + unfold stdout in *. simpl. rewrite flat_map_app. simpl.
      rewrite app_nil_r, Hs. symmetry. apply records_same, same_below_app.
      lia.
Qed.

(** Lines 108-121. *)
Lemma start_single_Inv L s :
  Mid L s (length (tasks s)) -> Inv L (start_single L s).
Proof.
  intros [Hd Hk Hs]. unfold start_single. simpl_state.
  set (k := mkTask Direct _ _ _).
  constructor; simpl_state.
  - rewrite length_app. simpl. lia.
  - unfold shape; simpl_state.
    rewrite role_of_app_new, status_of_app_new. auto.
  - constructor; simpl_state.
    + intros i Hi. unfold is_done. rewrite status_of_app_l by lia.
      apply Hd, Hi.
    + apply wf_kwargs_app; auto. reflexivity.
    + unfold stdout in *. simpl. rewrite flat_map_app. simpl.
      rewrite app_nil_r, Hs. symmetry. apply records_same, same_below_app.
      lia.
Qed.

Lemma Mid_init L : Mid L init 0.
Proof.
  constructor.
  - intros i Hi. lia.
  - intros i k Hk. destruct i; discriminate.
  - reflexivity.
Qed.

Lemma enter_Inv L : exists s, enter L = Running s /\ Inv L s.
Proof.
  unfold enter.
  destruct (negb (loop (args L)) || in_wake_asr (stop_after (args L)));
    eexists; (split; [reflexivity|]).
  - apply start_single_Inv, Mid_init.
  - apply start_request_Inv, Mid_init.
Qed.

(** Lines 123-127 and what follows them. *)
Lemma on_await_Inv L s c s' :
  Mid L s c ->
  length (tasks s) = S c ->
  role_of (tasks s) c = Some Direct ->
  is_done (tasks s) c = true ->
  on_await L c s = Running s' ->
  Inv L s'.
Proof.
  intros [Hd Hk Hs] Hlen Hrole Hdone Hrun. unfold on_await in Hrun.
  apply is_done_status in Hdone as [o Hst]. rewrite Hst in Hrun.
  destruct (result (tasks s) c) as [r|e] eqn:Hres; [|discriminate].
  apply result_Ok_status in Hres.
  assert (Hm : Mid L (print r (consume c r s))
                 (length (tasks (print r (consume c r s))))).
  { simpl_state. rewrite Hlen. constructor; simpl_state; auto.
    - intros i Hi. destruct (decide (i = c)) as [->|]; [|apply Hd; lia].
      apply is_done_status. eauto.
    - unfold stdout in *. simpl. rewrite !flat_map_app. simpl.
      rewrite !app_nil_r, Hs, records_S. f_equal.
      unfold record_of. now rewrite Hrole, Hres. }
  destruct (negb (loop (args L))); inversion Hrun; subst s'.
  - now apply start_request_Inv.
  - now apply start_single_Inv.
Qed.

Lemma eqb_succ_r t : Nat.eqb t (S t) = false.
Proof. apply Nat.eqb_neq. lia. Qed.

(** ** One return of [asyncio.wait], case by case

    [aws] is [[request_task]], [[request_task; response_task]] or
    [[response_task]]; the cases are told apart by which of the awaited
    tasks are done. *)

Section OnWait.
Variable L : Locals.
Variable s : State.
Variable t : nat.

Lemma on_wait_alone_idle rq :
  is_done (tasks s) rq = false ->
  on_wait L rq None [rq] s = Running s.
Proof. intros H. unfold on_wait. simpl. now rewrite H. Qed.

Lemma on_wait_alone_done rq :
  is_done (tasks s) rq = true ->
  on_wait L rq None [rq] s = after_wait L rq None s.
Proof. intros H. unfold on_wait. simpl. now rewrite H. Qed.

Lemma on_wait_both_idle :
  is_done (tasks s) (S t) = false -> is_done (tasks s) t = false ->
  on_wait L (S t) (Some t) [S t; t] s = Running s.
Proof. intros H1 H2. unfold on_wait. simpl. now rewrite H1, H2. Qed.

(** Lines 158-163: the request is done, the response is not. *)
Lemma on_wait_request_first :
  is_done (tasks s) (S t) = true -> is_done (tasks s) t = false ->
  on_wait L (S t) (Some t) [S t; t] s =
  Running (set_at (AwaitWait (S t) (Some t) [t]) (cancel t s)).
Proof.
  intros H1 H2. unfold on_wait. simpl. rewrite H1, H2. simpl.
  unfold mem. simpl. rewrite eqb_succ_r. simpl.
  rewrite Nat.eqb_refl. reflexivity.
Qed.

Lemma on_wait_response_first :
  is_done (tasks s) (S t) = false -> is_done (tasks s) t = true ->
  on_wait L (S t) (Some t) [S t; t] s =
  match response_done t s with
  | Err e => Failed e s
  | Ok s1 => Running (set_at (AwaitWait (S t) None [S t]) s1)
  end.
Proof.
  intros H1 H2. unfold on_wait. simpl. rewrite H1, H2. simpl.
  unfold mem. simpl. rewrite Nat.eqb_refl. simpl.
  now destruct (response_done t s).
Qed.

Lemma on_wait_both_done :
  is_done (tasks s) (S t) = true -> is_done (tasks s) t = true ->
  on_wait L (S t) (Some t) [S t; t] s =
  match response_done t s with
  | Err e => Failed e s
  | Ok s1 => after_wait L (S t) None s1
  end.
Proof.
  intros H1 H2. unfold on_wait. simpl. rewrite H1, H2. simpl.
  unfold mem. simpl. rewrite eqb_succ_r, Nat.eqb_refl. simpl.
  now destruct (response_done t s).
Qed.

Lemma on_wait_late_idle :
  is_done (tasks s) t = false ->
  on_wait L (S t) (Some t) [t] s = Running s.
Proof. intros H. unfold on_wait. simpl. now rewrite H. Qed.

Lemma on_wait_late_done :
  is_done (tasks s) t = true ->
  on_wait L (S t) (Some t) [t] s =
  match response_done t s with
  | Err e => Failed e s
  | Ok s1 => after_wait L (S t) None s1
  end.
Proof.
  intros H. unfold on_wait. simpl. rewrite H. simpl.
  unfold mem. simpl. rewrite Nat.eqb_refl. simpl.
  now destruct (response_done t s).
Qed.

End OnWait.

(** ** The invariant holds at every suspension *)

Lemma Inv_idle L s (ts' : list Task) :
  Inv L s -> Forall2 advances (tasks s) ts' ->
  status_of ts' (current s) = status_of (tasks s) (current s) ->
  (forall t, response_slot s = Some t -> status_of ts' t = Pending) ->
  Mid L (set_tasks ts' s) (processed s) ->
  Inv L (set_tasks ts' s).
Proof.
  intros [Hlen Hshape Hmid] Hadv Hcur Hresp Hmid'.
  constructor; auto.
  - simpl_state. now rewrite (advances_length _ _ Hadv).
  - unfold shape, current, processed, response_slot in *.
    change (at_ (set_tasks ts' s)) with (at_ s).
    change (tasks (set_tasks ts' s)) with ts'.
    change (pipeline_result (set_tasks ts' s)) with (pipeline_result s).
    destruct (at_ s) as [c|rq [t|] aws].
    + destruct Hshape as [Hr Hs]. rewrite (advances_role_of _ _ Hadv).
      split; congruence.
    + destruct Hshape as (Hr & -> & Hrt & Hst & Haws & r & Hpr & Hseed).
      rewrite !(advances_role_of _ _ Hadv).
      split; [auto|]. split; [auto|]. split; [auto|]. split; [auto|].
      split.
      * unfold is_done in *. rewrite Hcur. exact Haws.
      * exists r. split; auto.
        rewrite (advances_result_done _ _ Hadv); eauto using result_Ok_done.
    + destruct Hshape as (Hr & -> & Hs). rewrite (advances_role_of _ _ Hadv).
      split; [auto|]. split; congruence.
Qed.

Lemma resume_Inv L s cs s' :
  Inv L s ->
  resume L (set_tasks (deliver cs (tasks s)) s) = Running s' ->
  Inv L s'.
Proof.
  intros HI Hrun.
  pose proof (deliver_advances cs (tasks s)) as Hadv.
  pose proof (Mid_deliver L s cs _ (inv_mid _ _ HI)) as Hmid.
  pose proof (inv_length _ _ HI) as Hlen.
  pose proof (inv_shape _ _ HI) as Hshape.
  set (ts' := deliver cs (tasks s)) in *.
  set (sd := set_tasks ts' s) in *.
  assert (Hlen' : length (tasks sd) = S (current s)).
  { unfold sd. simpl_state. now rewrite (advances_length _ _ Hadv). }
  unfold resume in Hrun. change (at_ sd) with (at_ s) in Hrun.
  unfold shape, processed, response_slot, current in *.
  destruct (at_ s) as [c|rq [t|] aws] eqn:Hat.
  - (* the first loop *)
    destruct Hshape as [Hr Hs].
    destruct (is_done (tasks sd) c) eqn:Hd.
    + eapply on_await_Inv; eauto.
      unfold sd. simpl_state. now rewrite (advances_role_of _ _ Hadv).
    + unfold on_await in Hrun.
      rewrite (proj1 (is_done_false _ _) Hd) in Hrun.
      inversion Hrun; subst s'.
      apply is_done_false in Hd.
      apply Inv_idle; auto; unfold processed, response_slot, current;
        rewrite ?Hat; auto; try discriminate.
      unfold sd in Hd. simpl_state. congruence.
  - (* a response is in flight *)
    destruct Hshape as (Hr & -> & Hrt & Hst & Haws & r & Hpr & Hseed).
    assert (Hr' : role_of (tasks sd) (S t) = Some Request).
    { unfold sd. simpl_state. now rewrite (advances_role_of _ _ Hadv). }
    assert (Hrt' : role_of (tasks sd) t = Some Response).
    { unfold sd. simpl_state. now rewrite (advances_role_of _ _ Hadv). }
    assert (Hseed' : result (tasks sd) (pred t) = Ok r).
    { unfold sd. simpl_state.
      rewrite (advances_result_done _ _ Hadv); eauto using result_Ok_done. }
    assert (Hidle : is_done (tasks sd) t = false ->
              status_of ts' (S t) = status_of (tasks s) (S t) ->
              Inv L sd).
    { intros Hd Hs. apply Inv_idle; auto;
        unfold processed, response_slot, current; rewrite ?Hat; auto.
      intros t0 [= <-]. now apply is_done_false. }
    assert (Hresp : forall s1, response_done t sd = Ok s1 ->
              is_done (tasks sd) t = true ->
              tasks s1 = tasks sd /\ Mid L s1 (S t)).
    { intros s1 H1 Hd.
      destruct (response_done_Mid L sd t r s1) as (E1 & _ & M & _); auto. }
    destruct Haws as [[-> Hsr]|[-> Hdr]].
    + destruct (is_done (tasks sd) (S t)) eqn:Hd1;
        destruct (is_done (tasks sd) t) eqn:Hd2.
      * rewrite on_wait_both_done in Hrun by assumption.
        destruct (response_done t sd) as [s1|e] eqn:Hrd; [|discriminate].
        destruct (Hresp s1 eq_refl eq_refl) as [E1 M].
        eapply after_wait_Inv; eauto; rewrite E1; auto.
      * rewrite on_wait_request_first in Hrun by assumption.
        inversion Hrun; subst s'; clear Hrun.
        constructor; simpl_state.
        -- rewrite length_alter. exact Hlen'.
        -- unfold shape; simpl_state.
           rewrite !role_of_cancel, !status_of_cancel.
           split; [auto|]. split; [auto|]. split; [auto|].
           split; [now apply is_done_false|]. split.
           ++ right. split; auto. unfold is_done.
              rewrite status_of_cancel. exact Hd1.
           ++ exists r. split; auto. unfold result.
              rewrite status_of_cancel. exact Hseed'.
        -- eapply Mid_ext; [| |apply (Mid_cancel L sd t t Hmid)];
             reflexivity.
      * rewrite on_wait_response_first in Hrun by assumption.
        destruct (response_done t sd) as [s1|e] eqn:Hrd; [|discriminate].
        destruct (Hresp s1 eq_refl eq_refl) as [E1 M].
        inversion Hrun; subst s'; clear Hrun.
        constructor; simpl_state.
        -- now rewrite E1.
        -- unfold shape; simpl_state. rewrite E1.
           split; [auto|]. split; [auto|]. now apply is_done_false.
        -- eapply Mid_ext; [| |exact M]; reflexivity.
      * rewrite on_wait_both_idle in Hrun by assumption.
        inversion Hrun; subst s'. apply Hidle; auto.
        apply is_done_false in Hd1. unfold sd in Hd1. simpl_state.
        congruence.
    + destruct (is_done (tasks sd) t) eqn:Hd2.
      * rewrite on_wait_late_done in Hrun by assumption.
        destruct (response_done t sd) as [s1|e] eqn:Hrd; [|discriminate].
        destruct (Hresp s1 eq_refl eq_refl) as [E1 M].
        eapply after_wait_Inv; eauto; rewrite E1; auto.
      * rewrite on_wait_late_idle in Hrun by assumption.
        inversion Hrun; subst s'. apply Hidle; auto.
        now apply (advances_done _ _ Hadv).
  - (* only the request is in flight *)
    destruct Hshape as (Hr & -> & Hs).
    assert (Hr' : role_of (tasks sd) rq = Some Request).
    { unfold sd. simpl_state. now rewrite (advances_role_of _ _ Hadv). }
    destruct (is_done (tasks sd) rq) eqn:Hd.
    + rewrite on_wait_alone_done in Hrun by assumption.
      eapply after_wait_Inv; eauto.
    + rewrite on_wait_alone_idle in Hrun by assumption.
      inversion Hrun; subst s'.
      apply is_done_false in Hd.
      apply Inv_idle; auto; unfold processed, response_slot, current;
        rewrite ?Hat; auto; try discriminate.
      unfold sd in Hd. simpl_state. congruence.
Qed.

Lemma fold_step_Failed L e s more :
  fold_left (step L) more (Failed e s) = Failed e s.
Proof. induction more; simpl; auto. Qed.

Lemma run_snoc L sched ev : run L (sched ++ [ev]) = step L (run L sched) ev.
Proof. unfold run. now rewrite fold_left_app. Qed.

Lemma run_app L sched more :
  run L (sched ++ more) = fold_left (step L) more (run L sched).
Proof. unfold run. now rewrite fold_left_app. Qed.

Lemma step_Running_inv L m ev s' :
  step L m ev = Running s' -> exists s, m = Running s.
Proof. destruct m; simpl; [eauto|discriminate]. Qed.

(** [main] is resumed only by a batch that does not interrupt. *)
Lemma step_Complete_Running L s cs s' :
  step L (Running s) (Complete cs) = Running s' ->
  interrupted_by cs (tasks s) = false /\
  resume L (set_tasks (deliver cs (tasks s)) s) = Running s'.
Proof.
  simpl. destruct (interrupted_by cs (tasks s)); [discriminate|auto].
Qed.

Lemma run_Inv L sched s : run L sched = Running s -> Inv L s.
Proof.
  revert s. induction sched as [|ev sched IH] using rev_ind; intros s Hrun.
  - destruct (enter_Inv L) as (s0 & E & HI). unfold run in Hrun.
    simpl in Hrun. congruence.
  - rewrite run_snoc in Hrun.
    destruct (step_Running_inv _ _ _ _ Hrun) as [s0 E0].
    rewrite E0 in Hrun. specialize (IH _ E0).
    destruct ev as [cs|]; [|discriminate].
    apply step_Complete_Running in Hrun as [_ Hrun].
    eapply resume_Inv; eauto.
Qed.

Lemma main_setup h a sched s :
  main h a sched = Running s ->
  exists L, setup h a = Ok L /\ run L sched = Running s.
Proof.
  unfold main. destruct (setup h a) as [L|e]; [eauto|discriminate].
Qed.

Lemma main_Ok h a L sched : setup h a = Ok L -> main h a sched = run L sched.
Proof. unfold main. now intros ->. Qed.

Lemma main_Inv h a sched s :
  main h a sched = Running s -> exists L, setup h a = Ok L /\ Inv L s.
Proof.
  intros H. destruct (main_setup _ _ _ _ H) as (L & E & R).
  eauto using run_Inv.
Qed.

(** The decision that lines 149-167 take at a suspension that satisfies
    the invariant, once the environment has moved. *)
Lemma resume_wait L s cs rq rs aws :
  Inv L s -> at_ s = AwaitWait rq rs aws ->
  let sd := set_tasks (deliver cs (tasks s)) s in
  resume L sd =
  match rs with
  | None =>
      if is_done (tasks sd) rq then after_wait L rq None sd else Running sd
  | Some t =>
      if is_done (tasks sd) t
      then match response_done t sd with
           | Err e => Failed e sd
           | Ok s1 =>
               if is_done (tasks sd) rq
               then after_wait L rq None s1
               else Running (set_at (AwaitWait rq None [rq]) s1)
           end
      else if is_done (tasks sd) rq
      then if is_done (tasks s) rq
           then Running sd
           else Running (set_at (AwaitWait rq (Some t) [t]) (cancel t sd))
      else Running sd
  end.
Proof.
  intros HI Hat sd.
  pose proof (deliver_advances cs (tasks s)) as Hadv.
  pose proof (inv_shape _ _ HI) as Hshape.
  unfold shape in Hshape. rewrite Hat in Hshape.
  unfold resume. change (at_ sd) with (at_ s). rewrite Hat.
  destruct rs as [t|].
  - destruct Hshape as (Hr & -> & Hrt & Hst & Haws & r & Hpr & Hseed).
    destruct Haws as [[-> Hsr]|[-> Hdr]].
    + rewrite (proj2 (is_done_false _ _) Hsr).
      destruct (is_done (tasks sd) (S t)) eqn:Hd1;
        destruct (is_done (tasks sd) t) eqn:Hd2.
      * now rewrite on_wait_both_done.
      * now rewrite on_wait_request_first.
      * now rewrite on_wait_response_first.
      * now rewrite on_wait_both_idle.
    + rewrite Hdr.
      assert (Hd1 : is_done (tasks sd) (S t) = true).
      { unfold is_done. unfold sd. simpl_state.
        rewrite (advances_done _ _ Hadv); auto. }
      rewrite Hd1.
      destruct (is_done (tasks sd) t) eqn:Hd2.
      * now rewrite on_wait_late_done.
      * now rewrite on_wait_late_idle.
  - destruct Hshape as (Hr & -> & Hs).
    destruct (is_done (tasks sd) rq) eqn:Hd.
    + now rewrite on_wait_alone_done.
    + now rewrite on_wait_alone_idle.
Qed.

(** ** C1: one record per processed invocation *)

Lemma Inv_stdout L s : Inv L s -> stdout s = records (tasks s) (current s).
Proof.
  intros [Hlen Hshape [Hd Hk Hs]]. rewrite Hs.
  unfold processed, response_slot, current, shape in *.
  destruct (at_ s) as [c|rq [t|] aws]; auto.
  destruct Hshape as (_ & -> & _ & Hst & _).
  rewrite records_S, (record_of_pending _ _ Hst). now rewrite app_nil_r.
Qed.

Lemma Inv_pending L s i :
  Inv L s -> i < current s -> is_done (tasks s) i = false ->
  response_slot s = Some i.
Proof.
  intros [Hlen Hshape [Hd Hk Hs]] Hi Hp.
  unfold processed, response_slot, current, shape in *.
  destruct (at_ s) as [c|rq [t|] aws].
  - rewrite Hd in Hp by assumption. discriminate.
  - destruct Hshape as (_ & -> & _).
    destruct (decide (i = t)) as [->|Hne]; auto.
    rewrite Hd in Hp by lia. discriminate.
  - rewrite Hd in Hp by assumption. discriminate.
Qed.

(** Where line 169 raises, [main] ends with the locals of that line. *)
Lemma after_wait_Failed_state L rq rs s e s' :
  after_wait L rq rs s = Failed e s' ->
  s' = set_at (AwaitWait rq rs []) s /\ result (tasks s) rq = Err e.
Proof.
  unfold after_wait. destruct (result (tasks s) rq) as [r|e0].
  - destruct (pr_asr_transcript r); discriminate.
  - intros [= -> ->]. auto.
Qed.

(** What a move of the environment leaves of [Mid]. *)
Lemma Mid_advances L s ts' n :
  Forall2 advances (tasks s) ts' -> Mid L s n -> Mid L (set_tasks ts' s) n.
Proof.
  intros Hadv [Hd Hk Ho]. constructor; simpl.
  - intros i Hi. unfold is_done. rewrite (advances_done _ _ Hadv); auto.
    apply Hd, Hi.
  - eapply wf_kwargs_advances; eauto.
  - change (stdout (set_tasks ts' s)) with (stdout s).
    rewrite Ho. symmetry. apply records_same.
    apply same_below_advances; auto.
Qed.

Lemma after_wait_Failed_Mid L rq s e s' :
  Mid L s rq -> after_wait L rq None s = Failed e s' ->
  Mid L s' (processed s').
Proof.
  intros HM Hf. apply after_wait_Failed_state in Hf as [-> _].
  change (processed (set_at (AwaitWait rq None []) s)) with rq.
  eapply Mid_ext; [| |exact HM]; reflexivity.
Qed.

(** The step in which [main] ends with an exception: what it has printed
    by then are the records of the invocations it has processed by then. *)
Lemma resume_Failed_Mid L s cs e s' :
  Inv L s ->
  resume L (set_tasks (deliver cs (tasks s)) s) = Failed e s' ->
  Mid L s' (processed s').
Proof.
  intros HI Hf.
  pose proof (deliver_advances cs (tasks s)) as Hadv.
  pose proof (Mid_deliver L s cs _ (inv_mid _ _ HI)) as Hmid.
  pose proof (inv_shape _ _ HI) as Hshape.
  unfold shape in Hshape. unfold processed, response_slot, current in Hmid.
  destruct (at_ s) as [c|rq rs aws] eqn:Hat.
  - unfold resume in Hf.
    change (at_ (set_tasks (deliver cs (tasks s)) s)) with (at_ s) in Hf.
    rewrite Hat in Hf. unfold on_await in Hf.
    destruct (status_of _ c); [discriminate|].
    destruct (result _ c) as [r|e0].
    { destruct (negb (loop (args L))); discriminate. }
    inversion Hf; subst e0 s'.
    unfold processed, response_slot, current. simpl_state. now rewrite Hat.
  - rewrite (resume_wait L s cs _ _ _ HI Hat) in Hf. cbv zeta in Hf.
    set (sd := set_tasks (deliver cs (tasks s)) s) in *.
    destruct rs as [t|].
    + destruct Hshape as (Hr & -> & Hrt & Hst & Haws & r & Hpr & Hseed).
      destruct (is_done (tasks sd) t) eqn:Hdt.
      * destruct (response_done t sd) as [s1|e1] eqn:Hrd.
        -- destruct (is_done (tasks sd) (S t)); [|discriminate].
           destruct (response_done_Mid L sd t r s1) as (_ & _ & M & _); auto.
           { unfold sd. simpl_state.
             now rewrite (advances_role_of _ _ Hadv). }
           { unfold sd. simpl_state.
             rewrite (advances_result_done _ _ Hadv);
               eauto using result_Ok_done. }
           eapply after_wait_Failed_Mid; eauto.
        -- inversion Hf; subst e1 s'.
           unfold processed, response_slot, current, sd. simpl_state.
           now rewrite Hat.
      * destruct (is_done (tasks sd) (S t)); [|discriminate].
        destruct (is_done (tasks s) (S t)); discriminate.
    + destruct (is_done (tasks sd) rq); [|discriminate].
      eapply after_wait_Failed_Mid; eauto.
Qed.

(** However [main] stands, suspended or ended. *)
Lemma run_Mid L sched :
  Mid L (state_of (run L sched)) (processed (state_of (run L sched))).
Proof.
  induction sched as [|ev sched IH] using rev_ind.
  - destruct (enter_Inv L) as (s0 & E & HI). unfold run. simpl.
    rewrite E. apply (inv_mid _ _ HI).
  - rewrite run_snoc. destruct (run L sched) as [s0|e0 s0] eqn:Hrun;
      [|exact IH].
    pose proof (run_Inv _ _ _ Hrun) as HI.
    destruct ev as [cs|]; simpl; [|exact IH].
    destruct (interrupted_by cs (tasks s0)) eqn:Hi.
    + simpl. apply (Mid_advances L s0 _ _ (finish_all_advances cs _)).
      apply (inv_mid _ _ HI).
    + destruct (resume L (set_tasks (deliver cs (tasks s0)) s0))
        as [s'|e s'] eqn:Hres; simpl.
      * apply (inv_mid _ _ (resume_Inv _ _ _ _ HI Hres)).
      * eapply resume_Failed_Mid; eauto.
Qed.

(** C1 (as amended).  However far [main] has come, suspended or ended
    with an exception, the records on [sys.stdout] are, in the order in
    which the invocations were started, those of the invocations whose
    end it has processed, the step in which it ends included:
    one record for a direct invocation and for a response that returned,
    one for a request that returned without a transcript, none for a
    request that returned with a transcript (its result is kept in
    [pipeline_result] and is printed only if its response ends
    cancelled).  The processed invocations have all ended, and while
    [main] is suspended they are all those started before the current
    one, except the response still in its slot. *)
Theorem C1_one_record_per_processed_invocation h a sched :
  let s := state_of (main h a sched) in
  stdout s = flat_map (record_of (tasks s)) (seq 0 (processed s)) /\
  (forall i, i < processed s -> is_done (tasks s) i = true) /\
  (forall i, main h a sched = Running s -> i < current s ->
     is_done (tasks s) i = false -> response_slot s = Some i).
Proof.
  cbv zeta. split; [|split].
  - unfold main. destruct (setup h a) as [L|e]; [|reflexivity].
    apply (mid_stdout _ _ _ (run_Mid L sched)).
  - unfold main. destruct (setup h a) as [L|e].
    + apply (mid_done _ _ _ (run_Mid L sched)).
    + intros i Hi. inversion Hi.
  - intros i H. destruct (main_Inv _ _ _ _ H) as (L & _ & HI).
    rewrite H. now apply (Inv_pending L).
Qed.

Lemma C1_one_record_per_processed_invocation_witness :
  let s := state_of (main host_ok args_loop sched_reply_and_error) in
  stdout s = flat_map (record_of (tasks s)) (seq 0 (processed s)) /\
  (forall i, i < processed s -> is_done (tasks s) i = true) /\
  (forall i, main host_ok args_loop sched_reply_and_error = Running s ->
     i < current s -> is_done (tasks s) i = false ->
     response_slot s = Some i).
Proof.
  exact (C1_one_record_per_processed_invocation host_ok args_loop
           sched_reply_and_error).
Defined.

(** The same run by evaluation: the response of the first turn returns
    and the request of the second raises before [main] is resumed; the
    record of the response is printed in the step that ends [main]. *)
Lemma reply_and_error_run :
  let m := main host_ok args_loop sched_reply_and_error in
  (exists s, m = Failed tts_error s) /\
  stdout (state_of m) = [replied] /\ processed (state_of m) = 2.
Proof. vm_compute. repeat split. eexists. reflexivity. Qed.

(** C1 as stated fails.  A request that returns with a transcript gets no
    record when it completes, and none of its own when its response
    returns; and a response that returns after the next request has
    completed is printed before that request. *)
Lemma C1_counterexample :
  let m1 := main host_ok args_loop [Complete [(0, Returned heard)]] in
  let m2 := main host_ok args_loop
              [Complete [(0, Returned heard)];
               Complete [(1, Returned replied)]] in
  let m3 := main host_ok args_loop
              [Complete [(0, Returned heard)];
               Complete [(2, Returned silence)];
               Complete [(1, Returned replied)]] in
  (status_of (tasks (state_of m1)) 0 = Finished (Returned heard) /\
   stdout (state_of m1) = []) /\
  stdout (state_of m2) = [replied] /\
  stdout (state_of m3) = [replied; silence].
Proof. vm_compute. repeat split. Qed.

(** ** C4: the two slots *)

Lemma filter_at_most_one {A} (P : A -> bool) (l : list A) :
  (forall i j x y, l !! i = Some x -> l !! j = Some y ->
     P x = true -> P y = true -> i = j) ->
  length (List.filter P l) <= 1.
Proof.
  induction l as [|a l IH]; intros Huniq; simpl; [lia|].
  destruct (P a) eqn:Pa.
  - assert (E : List.filter P l = []).
    { destruct (List.filter P l) as [|y l'] eqn:E; [reflexivity|].
      assert (Hy : In y (List.filter P l)) by (rewrite E; now left).
      apply filter_In in Hy as [Hy Py].
      apply list_elem_of_In, list_elem_of_lookup in Hy as [j Hj].
      specialize (Huniq 0 (S j) a y eq_refl Hj Pa Py). discriminate. }
    rewrite E. simpl. lia.
  - apply IH. intros i j x y Hi Hj Px Py.
    specialize (Huniq (S i) (S j) x y Hi Hj Px Py). lia.
Qed.

Lemma role_of_lookup (ts : list Task) (i : nat) (k : Task) :
  ts !! i = Some k -> role_of ts i = Some (role k).
Proof. intros H. unfold role_of. now rewrite H. Qed.

Lemma status_of_lookup (ts : list Task) (i : nat) (k : Task) :
  ts !! i = Some k -> status_of ts i = status k.
Proof. intros H. unfold status_of. now rewrite H. Qed.

(** A pending invocation sits in one of the two slots. *)
Lemma Inv_in_flight L s i :
  Inv L s -> i < length (tasks s) -> status_of (tasks s) i = Pending ->
  i = current s /\ role_of (tasks s) i <> Some Response \/
  response_slot s = Some i /\ role_of (tasks s) i = Some Response /\
    current s = S i.
Proof.
  intros HI Hi Hp.
  pose proof (inv_length _ _ HI) as Hlen.
  pose proof (inv_shape _ _ HI) as Hshape.
  destruct (decide (i = current s)) as [->|Hne].
  - left. split; auto.
    unfold shape, current in *.
    destruct (at_ s) as [c|rq rs aws].
    + destruct Hshape as [-> _]. discriminate.
    + destruct Hshape as [-> _]. discriminate.
  - right.
    assert (Hs : response_slot s = Some i).
    { apply (Inv_pending L); auto; [lia|]. now apply is_done_false. }
    unfold shape, current, response_slot in *.
    destruct (at_ s) as [c|rq [t|] aws]; try discriminate.
    inversion Hs; subst t.
    destruct Hshape as (_ & -> & Hr & _). auto.
Qed.

Lemma Inv_in_flight_le L s r :
  Inv L s -> r <> Direct -> in_flight r (tasks s) <= 1.
Proof.
  intros HI Hr. unfold in_flight. apply filter_at_most_one.
  intros i j x y Hx Hy Px Py.
  apply andb_prop in Px as [Rx Sx]. apply andb_prop in Py as [Ry Sy].
  assert (Hi : status_of (tasks s) i = Pending).
  { rewrite (status_of_lookup _ _ _ Hx). unfold is_pending in Sx.
    now destruct (status x). }
  assert (Hj : status_of (tasks s) j = Pending).
  { rewrite (status_of_lookup _ _ _ Hy). unfold is_pending in Sy.
    now destruct (status y). }
  pose proof (role_of_lookup _ _ _ Hx) as Ri.
  pose proof (role_of_lookup _ _ _ Hy) as Rj.
  apply lookup_lt_Some in Hx, Hy.
  destruct (Inv_in_flight L s i HI Hx Hi) as [[Ei Ni]|(Si & Ti & Ci)];
    destruct (Inv_in_flight L s j HI Hy Hj) as [[Ej Nj]|(Sj & Tj & Cj)];
    try congruence.
  - exfalso. rewrite Ri in Ni. rewrite Rj in Tj.
    unfold has_role in Rx, Ry.
    destruct r, (role x), (role y); congruence.
  - exfalso. rewrite Rj in Nj. rewrite Ri in Ti.
    unfold has_role in Rx, Ry.
    destruct r, (role x), (role y); congruence.
Qed.

(** C4.  At every suspension of [main] at most one request invocation
    and at most one response invocation are in flight, and of two
    response invocations the earlier one is done: since nothing finishes
    while [main] runs between two suspensions, a response is started
    (line 176) only after the previous response is done. *)
Theorem C4_at_most_one_request_and_one_response h a sched s :
  main h a sched = Running s ->
  in_flight Request (tasks s) <= 1 /\
  in_flight Response (tasks s) <= 1 /\
  (forall i j, i < j ->
     role_of (tasks s) i = Some Response ->
     role_of (tasks s) j = Some Response ->
     is_done (tasks s) i = true).
Proof.
  intros H. destruct (main_Inv _ _ _ _ H) as (L & _ & HI).
  split; [apply (Inv_in_flight_le L); [auto|discriminate]|].
  split; [apply (Inv_in_flight_le L); [auto|discriminate]|].
  intros i j Hij Ri Rj.
  destruct (is_done (tasks s) i) eqn:Hd; [reflexivity|exfalso].
  apply is_done_false in Hd.
  assert (Hi : i < length (tasks s)).
  { unfold role_of in Ri. destruct (tasks s !! i) eqn:E; [|discriminate].
    eapply lookup_lt_Some; eauto. }
  assert (Hj : j < length (tasks s)).
  { unfold role_of in Rj. destruct (tasks s !! j) eqn:E; [|discriminate].
    eapply lookup_lt_Some; eauto. }
  destruct (Inv_in_flight L s i HI Hi Hd) as [[Ei Ni]|(Si & Ti & Ci)];
    [congruence|].
  rewrite (inv_length _ _ HI), Ci in Hj.
  assert (j = current s) as -> by lia.
  pose proof (inv_shape _ _ HI) as Hshape.
  unfold shape, current in *.
  destruct (at_ s) as [c|rq rs aws].
  - destruct Hshape as [E _]. congruence.
  - destruct Hshape as [E _]. congruence.
Qed.

Lemma C4_at_most_one_request_and_one_response_witness :
  let s := state_of (main host_ok args_loop sched_barge_in) in
  in_flight Request (tasks s) <= 1 /\
  in_flight Response (tasks s) <= 1 /\
  (forall i j, i < j ->
     role_of (tasks s) i = Some Response ->
     role_of (tasks s) j = Some Response ->
     is_done (tasks s) i = true).
Proof.
  apply (C4_at_most_one_request_and_one_response host_ok args_loop
           sched_barge_in).
  vm_compute. reflexivity.
Defined.

(** ** C8, C9: the pre-supplied stage results *)

Lemma bind_Ok {A B} (x : Res A) (f : A -> Res B) b :
  bind x f = Ok b -> exists a, x = Ok a /\ f a = Ok b.
Proof. destruct x; simpl; [eauto|discriminate]. Qed.

(** What lines 71-105 leave in the locals. *)
Lemma setup_locals h a L :
  setup h a = Ok L ->
  args L = a /\
  wake_detection L = option_map mkDetection (truthy (wake_name a)) /\
  asr_transcript L = option_map mkTranscript (truthy (asr_text a)) /\
  handle_result L = option_map Handled (truthy (handle_text a)) /\
  open_opt h (asr_wav a) = Ok (asr_wav_in L) /\
  load_intent h (intent_json a) = Ok (intent_result L) /\
  open_opt h (tts_wav a) = Ok (tts_wav_in L) /\
  rhasspy_load h (config a) = Ok (rhasspy L).
Proof.
  unfold setup. intros H.
  apply bind_Ok in H as (wav & Hwav & H).
  apply bind_Ok in H as (ir & Hir & H).
  apply bind_Ok in H as (tts & Htts & H).
  apply bind_Ok in H as (rh & Hrh & H).
  inversion H; subst L; simpl. auto 10.
Qed.


Lemma Inv_request_kwargs L s i k :
  Inv L s -> tasks s !! i = Some k -> role k = Request ->
  kwargs k = request_kwargs L.
Proof.
  intros HI Hk Hr. pose proof (mid_kwargs _ _ _ (inv_mid _ _ HI) i k Hk) as H.
  now rewrite Hr in H.
Qed.

(** C8 (as amended).  Every request invocation of the second loop, that
    of the first turn and those of all later turns, is started with the
    pre-supplied wake detection, WAV input and transcript of the set-up and
    with [stop_after="asr"]. *)
Theorem C8_every_request_gets_presupplied_results h a L sched s i k :
  setup h a = Ok L ->
  main h a sched = Running s ->
  tasks s !! i = Some k -> role k = Request ->
  ra_wake_detection (kwargs k) =
    option_map mkDetection (truthy (wake_name a)) /\
  ra_asr_wav_in (kwargs k) = asr_wav_in L /\
  ra_asr_transcript (kwargs k) =
    option_map mkTranscript (truthy (asr_text a)) /\
  ra_stop_after (kwargs k) = Some ASR.
Proof.
  intros Hs Hm Hk Hr.
  destruct (main_Inv _ _ _ _ Hm) as (L' & Hs' & HI).
  assert (L' = L) as -> by congruence.
  rewrite (Inv_request_kwargs L s i k HI Hk Hr).
  destruct (setup_locals _ _ _ Hs) as (_ & Hw & Ht & _).
  simpl. auto.
Qed.

Lemma C8_every_request_gets_presupplied_results_witness :
  ra_wake_detection (kwargs later_request) =
    option_map mkDetection (truthy (wake_name args_loop_text)) /\
  ra_asr_wav_in (kwargs later_request) = None /\
  ra_asr_transcript (kwargs later_request) =
    option_map mkTranscript (truthy (asr_text args_loop_text)) /\
  ra_stop_after (kwargs later_request) = Some ASR.
Proof.
  apply (C8_every_request_gets_presupplied_results host_ok args_loop_text
           (mkLocals args_loop_text None None (Some (mkTranscript "hello"))
              None None None (mkRhasspy "config"))
           sched_two_turns
           (state_of (main host_ok args_loop_text sched_two_turns))
           2 later_request);
    vm_compute; reflexivity.
Defined.

(** C8 as stated fails: with [--loop --asr-text hello] the request of the
    third turn is started with the pre-supplied transcript again. *)
Lemma C8_counterexample :
  let s := state_of (main host_ok args_loop_text sched_two_turns) in
  role_of (tasks s) 2 = Some Request /\
  current s = 2 /\
  (ra_asr_transcript <$> kwargs_of (tasks s) 2) =
    Some (Some (mkTranscript "hello")).
Proof. vm_compute. repeat split. Qed.









(** By evaluation, in continuous mode: the first invocation is the
    request; it gets the pre-supplied transcript and [stop_after="asr"],
    not the pre-supplied handle result. *)
Lemma continuous_first_request_run :
  exists s k,
    main host_ok args_loop_skip [] = Running s /\ tasks s = [k] /\
    role k = Request /\
    ra_asr_transcript (kwargs k) = Some (mkTranscript "hello") /\
    ra_stop_after (kwargs k) = Some ASR /\
    ra_handle_result (kwargs k) = None.
Proof. eexists _, _. vm_compute. repeat split. Qed.

(** ** C10: the interrupt *)

(** The interrupt signal at a suspension ends [main] where it stands. *)
Lemma interrupt_at_suspension h a sched s :
  main h a sched = Running s ->
  main h a (sched ++ [Interrupt]) = Failed KeyboardInterrupt s.
Proof.
  intros H. destruct (main_setup _ _ _ _ H) as (L & HL & HR).
  rewrite (main_Ok _ _ _ _ HL), run_snoc, HR. reflexivity.
Qed.

Lemma main_Failed_app h a sched e s more :
  main h a sched = Failed e s -> main h a (sched ++ more) = Failed e s.
Proof.
  unfold main. destruct (setup h a) as [L|e0]; [|auto].
  intros H. now rewrite run_app, H, fold_step_Failed.
Qed.

(** C10.  Once a [KeyboardInterrupt] has come out of [main], the guard
    ends the process with status 0 and without an error report, and the
    output is what [main] had printed when the exception was raised,
    whatever the environment does afterwards; when the exception comes
    from the interrupt signal, that is the output at the suspension where
    the signal arrived. *)
Theorem C10_keyboard_interrupt_is_suppressed h a sched more :
  interrupted (main h a sched) = true ->
  script h a (sched ++ more) =
    Some (mkExit 0 None (stdout (state_of (main h a sched)))) /\
  (forall sched0 s0,
     sched = sched0 ++ [Interrupt] -> main h a sched0 = Running s0 ->
     stdout (state_of (main h a sched)) = stdout s0).
Proof.
  intros H. split.
  - destruct (main h a sched) as [s|e s] eqn:E; [discriminate|].
    destruct e; try discriminate.
    unfold script. now rewrite (main_Failed_app _ _ _ _ _ more E).
  - intros sched0 s0 -> H0.
    now rewrite (interrupt_at_suspension _ _ _ _ H0).
Qed.

Lemma C10_keyboard_interrupt_is_suppressed_witness :
  script host_ok args_loop
    ([Complete [(0, Returned silence)]; Interrupt] ++
     [Complete [(1, Returned silence)]]) =
  Some (mkExit 0 None [silence]).
Proof.
  apply (proj1 (C10_keyboard_interrupt_is_suppressed host_ok args_loop
                  [Complete [(0, Returned silence)]; Interrupt]
                  [Complete [(1, Returned silence)]] eq_refl)).
Defined.

(** ** C7: without [--loop] *)

(** C7 fails on the code.  Without [--loop] the first loop is left by the
    [break] of line 127 after one invocation, and control reaches line
    129: a request task is started and [main] waits for it; the process
    does not end. *)
Theorem C7_without_loop_the_second_loop_is_entered h a L r :
  setup h a = Ok L -> loop a = false ->
  exists s,
    main h a [Complete [(0, Returned r)]] = Running s /\
    trace s = [Spawn 0; Consume 0; Print r; Spawn 1] /\
    at_ s = AwaitWait 1 None [1] /\
    role_of (tasks s) 0 = Some Direct /\
    role_of (tasks s) 1 = Some Request /\
    status_of (tasks s) 1 = Pending /\
    script h a [Complete [(0, Returned r)]] = None.
Proof.
  intros HL Hloop. destruct (setup_locals _ _ _ HL) as (Ha & _).
  unfold script. rewrite (main_Ok _ _ _ _ HL).
  assert (Hl : loop (args L) = false) by congruence.
  unfold run, enter. rewrite Hl. simpl.
  unfold resume, start_single. simpl. unfold on_await. simpl.
  rewrite Hl. simpl.
  eexists. split; [reflexivity|]. simpl. auto 10.
Qed.

Lemma C7_without_loop_the_second_loop_is_entered_witness :
  exists s,
    main host_ok args_default [Complete [(0, Returned replied)]] =
      Running s /\
    trace s = [Spawn 0; Consume 0; Print replied; Spawn 1] /\
    at_ s = AwaitWait 1 None [1] /\
    role_of (tasks s) 0 = Some Direct /\
    role_of (tasks s) 1 = Some Request /\
    status_of (tasks s) 1 = Pending /\
    script host_ok args_default [Complete [(0, Returned replied)]] = None.
Proof.
  apply (C7_without_loop_the_second_loop_is_entered host_ok args_default
           (mkLocals args_default None None None None None None
              (mkRhasspy "config")) replied);
    reflexivity.
Defined.

(** Without [--loop], two invocations in flight and a cancellation. *)
Lemma without_loop_overlap_and_cancel :
  let s := state_of (main host_ok args_default
             [Complete [(0, Returned replied)];
              Complete [(1, Returned heard)];
              Complete [(3, Returned silence)]]) in
  trace s = [Spawn 0; Consume 0; Print replied; Spawn 1;
             Consume 1; Spawn 2; Spawn 3; Cancel 2] /\
  status_of (tasks s) 2 = Pending /\
  at_ s = AwaitWait 3 (Some 2) [2].
Proof. vm_compute. repeat split. Qed.

(** ** One step of a run *)

Lemma main_step h a L sched s cs :
  setup h a = Ok L -> main h a sched = Running s ->
  interrupted_by cs (tasks s) = false ->
  main h a (sched ++ [Complete cs]) =
  resume L (set_tasks (deliver cs (tasks s)) s).
Proof.
  intros HL H Hi. rewrite (main_Ok _ _ _ _ HL) in H.
  rewrite (main_Ok _ _ _ _ HL), run_snoc, H. simpl. now rewrite Hi.
Qed.

(** A batch in which a pending invocation raises [KeyboardInterrupt] ends
    [main] where it stands: nothing is cancelled, taken or printed. *)
Lemma main_interrupted_by h a sched s cs :
  main h a sched = Running s ->
  interrupted_by cs (tasks s) = true ->
  main h a (sched ++ [Complete cs]) =
  Failed KeyboardInterrupt (set_tasks (finish_all cs (tasks s)) s).
Proof.
  intros H Hi. destruct (main_setup _ _ _ _ H) as (L & HL & Hrun).
  rewrite (main_Ok _ _ _ _ HL), run_snoc, Hrun. simpl. now rewrite Hi.
Qed.

Lemma main_reach h a L sched s :
  setup h a = Ok L -> main h a sched = Running s -> Inv L s.
Proof.
  intros HL H. destruct (main_Inv _ _ _ _ H) as (L' & HL' & HI).
  congruence.
Qed.

(** Lines 151-156 by the state of the response task. *)
Lemma response_done_eq t s :
  response_done t s =
  match status_of (tasks s) t with
  | Finished (Returned r) => Ok (print r (consume t r s))
  | Finished (Raised e) => Err e
  | Finished Cancelled =>
      match pipeline_result s with
      | Some r => Ok (print r s)
      | None => Err (Exception "UnboundLocalError")
      end
  | Pending => Err (Exception "InvalidStateError")
  end.
Proof.
  unfold response_done, cancelled, result.
  destruct (status_of (tasks s) t) as [|[r|e|]]; reflexivity.
Qed.

(** What lines 169-189 and the start of the next turn add to the output. *)
Lemma after_wait_stdout L rq rs s :
  stdout (state_of (after_wait L rq rs s)) =
  stdout s ++
  match result (tasks s) rq with
  | Ok r => match pr_asr_transcript r with None => [r] | Some _ => [] end
  | Err _ => []
  end.
Proof.
  unfold after_wait. destruct (result (tasks s) rq) as [r|e]; simpl.
  - destruct (pr_asr_transcript r); simpl; unfold start_request;
      simpl_state; unfold stdout; simpl; rewrite !flat_map_app; simpl;
      now rewrite ?app_nil_r.
  - now rewrite app_nil_r.
Qed.

Lemma after_wait_Failed L rq rs s e s' :
  after_wait L rq rs s = Failed e s' -> result (tasks s) rq = Err e.
Proof.
  unfold after_wait. destruct (result (tasks s) rq) as [r|e0].
  - destruct (pr_asr_transcript r); discriminate.
  - congruence.
Qed.

(** The response in the slot and the request result it continues. *)
Lemma Inv_slot L s t :
  Inv L s -> response_slot s = Some t ->
  exists aws r,
    at_ s = AwaitWait (S t) (Some t) aws /\
    status_of (tasks s) t = Pending /\
    pipeline_result s = Some r /\
    role_of (tasks s) (pred t) = Some Request /\
    result (tasks s) (pred t) = Ok r /\
    pr_asr_transcript r <> None /\
    kwargs_of (tasks s) t = Some (response_kwargs L r).
Proof.
  intros HI Hslot.
  pose proof (inv_shape _ _ HI) as Hshape.
  pose proof (mid_kwargs _ _ _ (inv_mid _ _ HI)) as Hk.
  unfold shape, response_slot in *.
  destruct (at_ s) as [c|rq rs aws]; [discriminate|]. subst rs.
  destruct Hshape as (_ & -> & Hr & Hst & _ & r & Hpr & Hres).
  exists aws, r. split; [reflexivity|]. split; [auto|]. split; [auto|].
  unfold role_of in Hr. destruct (tasks s !! t) as [k|] eqn:Ek;
    [|discriminate].
  specialize (Hk _ _ Ek). simpl in Hr. inversion Hr as [Hr'].
  rewrite Hr' in Hk. destruct Hk as (r' & _ & Hrole & Hres' & Htr & Hkw).
  assert (r' = r) as -> by congruence.
  split; [auto|]. split; [auto|]. split; [auto|].
  unfold kwargs_of. rewrite Ek. simpl. now rewrite Hkw.
Qed.

(** A batch after which the request is done, and the response in the
    slot as well, has not interrupted. *)
Lemma wait_over_not_interrupted L s rq rs aws cs :
  Inv L s -> at_ s = AwaitWait rq rs aws ->
  is_done (deliver cs (tasks s)) rq = true ->
  (forall t, rs = Some t -> is_done (deliver cs (tasks s)) t = true) ->
  interrupted_by cs (tasks s) = false.
Proof.
  intros HI Hat Hrq Hrs. destruct rs as [t|].
  - destruct (Inv_slot L s t HI) as (_ & _ & _ & Hst & _).
    { unfold response_slot. now rewrite Hat. }
    apply (deliver_moved cs (tasks s) t). intros E.
    specialize (Hrs t eq_refl). unfold is_done in Hrs.
    rewrite E, Hst in Hrs. discriminate.
  - pose proof (inv_shape _ _ HI) as Hshape. unfold shape in Hshape.
    rewrite Hat in Hshape. destruct Hshape as (_ & _ & Hst).
    apply (deliver_moved cs (tasks s) rq). intros E.
    unfold is_done in Hrq. rewrite E, Hst in Hrq. discriminate.
Qed.

(** ** C2: a response that ends cancelled *)

(** The step in which the response in the slot ends cancelled. *)
Lemma step_response_cancelled h a L sched s t cs :
  setup h a = Ok L -> main h a sched = Running s ->
  response_slot s = Some t ->
  status_of (deliver cs (tasks s)) t = Finished Cancelled ->
  exists r,
    current s = S t /\
    role_of (tasks s) (pred t) = Some Request /\
    result (tasks s) (pred t) = Ok r /\
    kwargs_of (tasks s) t = Some (response_kwargs L r) /\
    main h a (sched ++ [Complete cs]) =
      let s1 := print r (set_tasks (deliver cs (tasks s)) s) in
      if is_done (deliver cs (tasks s)) (S t)
      then after_wait L (S t) None s1
      else Running (set_at (AwaitWait (S t) None [S t]) s1).
Proof.
  intros HL Hm Hslot Hc.
  pose proof (main_reach _ _ _ _ _ HL Hm) as HI.
  destruct (Inv_slot L s t HI Hslot)
    as (aws & r & Hat & Hst & Hpr & Hrole & Hres & Htr & Hkw).
  exists r. unfold current. rewrite Hat.
  split; [auto|]. split; [auto|]. split; [auto|]. split; [auto|].
  rewrite (main_step _ _ _ _ _ cs HL Hm)
    by (apply (deliver_moved cs (tasks s) t); congruence).
  rewrite (resume_wait L s cs _ _ _ HI Hat). cbv zeta.
  set (sd := set_tasks (deliver cs (tasks s)) s).
  assert (Hd : is_done (tasks sd) t = true).
  { unfold is_done, sd. simpl_state. now rewrite Hc. }
  rewrite Hd, response_done_eq.
  change (status_of (tasks sd) t) with (status_of (deliver cs (tasks s)) t).
  rewrite Hc. change (pipeline_result sd) with (pipeline_result s).
  now rewrite Hpr.
Qed.

(** C2 (as amended).  When the response in the slot ends in the cancelled
    state, lines 151-156 raise no error for it and print one record: not a
    result of the response, but the value still held by [pipeline_result],
    the result of the request whose transcript that response was started
    from.  The step fails only if the request itself has failed. *)
Theorem C2_cancelled_response_prints_the_request_result
    h a L sched s t cs :
  setup h a = Ok L -> main h a sched = Running s ->
  response_slot s = Some t ->
  status_of (deliver cs (tasks s)) t = Finished Cancelled ->
  exists r rest,
    role_of (tasks s) (pred t) = Some Request /\
    result (tasks s) (pred t) = Ok r /\
    kwargs_of (tasks s) t = Some (response_kwargs L r) /\
    stdout (state_of (main h a (sched ++ [Complete cs]))) =
      stdout s ++ r :: rest /\
    (forall e s', main h a (sched ++ [Complete cs]) = Failed e s' ->
       result (deliver cs (tasks s)) (current s) = Err e).
Proof.
  intros HL Hm Hslot Hc.
  destruct (step_response_cancelled h a L sched s t cs HL Hm Hslot Hc)
    as (r & Hcur & Hrole & Hres & Hkw & Hstep).
  cbv zeta in Hstep. rewrite Hstep, Hcur.
  set (sd := set_tasks (deliver cs (tasks s)) s).
  assert (Ho : stdout (print r sd) = stdout s ++ [r]).
  { unfold print. now rewrite stdout_log. }
  destruct (is_done (deliver cs (tasks s)) (S t)).
  - eexists r, _. split; [auto|]. split; [auto|]. split; [auto|]. split.
    + rewrite after_wait_stdout, Ho, <- app_assoc. reflexivity.
    + intros e s' Hf. now apply after_wait_Failed in Hf.
  - exists r, []. split; [auto|]. split; [auto|]. split; [auto|]. split.
    + exact Ho.
    + discriminate.
Qed.

Lemma C2_cancelled_response_prints_the_request_result_witness :
  exists r rest,
    role_of (tasks (state_of (main host_ok args_loop sched_barge_in)))
      (pred 1) = Some Request /\
    result (tasks (state_of (main host_ok args_loop sched_barge_in)))
      (pred 1) = Ok r /\
    kwargs_of (tasks (state_of (main host_ok args_loop sched_barge_in))) 1 =
      Some (response_kwargs
              (mkLocals args_loop None None None None None None
                 (mkRhasspy "config")) r) /\
    stdout (state_of (main host_ok args_loop sched_cancelled)) =
      stdout (state_of (main host_ok args_loop sched_barge_in)) ++
      r :: rest /\
    (forall e s', main host_ok args_loop sched_cancelled = Failed e s' ->
       result (deliver [(1, Cancelled)]
                 (tasks (state_of (main host_ok args_loop sched_barge_in))))
              (current (state_of (main host_ok args_loop sched_barge_in))) =
       Err e).
Proof.
  apply (C2_cancelled_response_prints_the_request_result host_ok args_loop
           (mkLocals args_loop None None None None None None
              (mkRhasspy "config"))
           sched_barge_in
           (state_of (main host_ok args_loop sched_barge_in)) 1
           [(1, Cancelled)]);
    vm_compute; reflexivity.
Defined.

(** C2 as stated fails: the barge-in ends the response cancelled, and a
    record is printed at that moment (the result of request 0), before
    that of the request that interrupted. *)
Lemma C2_counterexample :
  stdout (state_of (main host_ok args_loop sched_barge_in)) = [] /\
  status_of (tasks (state_of (main host_ok args_loop sched_cancelled))) 1 =
    Finished Cancelled /\
  trace (state_of (main host_ok args_loop sched_cancelled)) =
    [Spawn 0; Consume 0; Spawn 1; Spawn 2; Cancel 1;
     Print heard; Consume 2; Spawn 3; Spawn 4].
Proof. vm_compute. repeat split. Qed.

(** ** C3: the request completes first *)

(** Lines 169-189 when the request has returned [r]. *)
Lemma after_wait_Ok L rq s r :
  result (tasks s) rq = Ok r -> length (tasks s) = S rq ->
  exists s2,
    after_wait L rq None s = Running s2 /\
    pipeline_result s2 = Some r /\
    In (Consume rq) (trace s2) /\
    tasks s2 !! (S rq) =
      Some (match pr_asr_transcript r with
            | Some _ => mkTask Response (response_kwargs L r) false Pending
            | None => mkTask Request (request_kwargs L) false Pending
            end).
Proof.
  intros Hres Hlen. unfold after_wait. rewrite Hres.
  destruct (pr_asr_transcript r) as [tr|].
  - eexists. split; [reflexivity|]. unfold start_request. simpl_state.
    split; [reflexivity|]. split.
    + rewrite !in_app_iff. left. left. right. now left.
    + rewrite <- Hlen. rewrite lookup_app_l
        by (rewrite length_app; simpl; lia).
      apply lookup_app_new.
  - eexists. split; [reflexivity|]. unfold start_request. simpl_state.
    split; [reflexivity|]. split.
    + rewrite !in_app_iff. left. left. right. now left.
    + rewrite <- Hlen. apply lookup_app_new.
Qed.

Lemma after_wait_Err L rq rs s e :
  result (tasks s) rq = Err e ->
  after_wait L rq rs s = Failed e (set_at (AwaitWait rq rs []) s).
Proof. intros H. unfold after_wait. now rewrite H. Qed.

(** A batch that is only the pending invocation [i] raising
    [KeyboardInterrupt]: [main] is not resumed; the guard ends the process
    with status 0 and what had been printed before. *)
Lemma request_interrupts h a sched s i :
  main h a sched = Running s -> status_of (tasks s) i = Pending ->
  i < length (tasks s) ->
  forall cs o,
    In (i, o) cs -> raises_interrupt o = true ->
    (forall c, In c cs -> c = (i, o)) ->
    main h a (sched ++ [Complete cs]) =
      Failed KeyboardInterrupt (set_tasks (finish_all cs (tasks s)) s) /\
    trace (set_tasks (finish_all cs (tasks s)) s) = trace s /\
    script h a (sched ++ [Complete cs]) = Some (mkExit 0 None (stdout s)).
Proof.
  intros Hm Hp Hi cs o Hin Ho Hall.
  assert (Hint : interrupted_by cs (tasks s) = true).
  { destruct cs as [|c cs]; [destruct Hin|].
    rewrite (Hall c (or_introl eq_refl)). simpl. rewrite Ho. simpl.
    unfold pending_at. unfold status_of in Hp.
    destruct (tasks s !! i) as [k|] eqn:Ek.
    - now rewrite Hp.
    - apply lookup_ge_None in Ek. lia. }
  pose proof (main_interrupted_by h a sched s cs Hm Hint) as E.
  split; [exact E|]. split; [reflexivity|].
  unfold script. now rewrite E.
Qed.

(** C3 (as amended).  When the request completes while the response is
    still pending, [Task.cancel] is called on the response (line 163) and
    [main] goes on waiting for it; the result of the request is not taken
    yet.  Once the response has ended in the cancelled state or with a
    result, the completion of the request is processed: its result is
    taken and, if it carries a transcript, a new response is started from
    it (if not, the next request); a failure of the request is raised.
    If the response ends by raising, that exception ends [main] and the
    result of the request is never taken.  A request that ends by raising
    [KeyboardInterrupt] is no such completion: [main] is not resumed, no
    cancellation is requested, and [KeyboardInterrupt] comes out of
    [main] where it is suspended. *)
Theorem C3_request_first_cancels_then_waits h a L sched s rq t :
  setup h a = Ok L -> main h a sched = Running s ->
  at_ s = AwaitWait rq (Some t) [rq; t] ->
  (forall cs,
     is_done (deliver cs (tasks s)) rq = true ->
     is_done (deliver cs (tasks s)) t = false ->
     exists s1,
       main h a (sched ++ [Complete cs]) = Running s1 /\
       trace s1 = trace s ++ [Cancel t] /\
       (cancel_requested <$> tasks s1 !! t) = Some true /\
       at_ s1 = AwaitWait rq (Some t) [t] /\
       pipeline_result s1 = pipeline_result s /\
       forall cs2 o,
         status_of (deliver cs2 (tasks s1)) t = Finished o ->
         match o with
         | Raised e =>
             main h a ((sched ++ [Complete cs]) ++ [Complete cs2]) =
             Failed e (set_tasks (deliver cs2 (tasks s1)) s1)
         | _ =>
             (forall r, result (tasks s1) rq = Ok r ->
                exists s2,
                  main h a ((sched ++ [Complete cs]) ++ [Complete cs2]) =
                    Running s2 /\
                  pipeline_result s2 = Some r /\
                  In (Consume rq) (trace s2) /\
                  tasks s2 !! (S rq) =
                    Some (match pr_asr_transcript r with
                          | Some _ =>
                              mkTask Response (response_kwargs L r) false
                                Pending
                          | None =>
                              mkTask Request (request_kwargs L) false Pending
                          end)) /\
             (forall e, result (tasks s1) rq = Err e ->
                exists s2,
                  main h a ((sched ++ [Complete cs]) ++ [Complete cs2]) =
                    Failed e s2)
         end) /\
  (forall cs o,
     In (rq, o) cs -> raises_interrupt o = true ->
     (forall c, In c cs -> c = (rq, o)) ->
     main h a (sched ++ [Complete cs]) =
       Failed KeyboardInterrupt (set_tasks (finish_all cs (tasks s)) s) /\
     trace (set_tasks (finish_all cs (tasks s)) s) = trace s /\
     script h a (sched ++ [Complete cs]) = Some (mkExit 0 None (stdout s))).
Proof.
  intros HL Hm Hat.
  pose proof (main_reach _ _ _ _ _ HL Hm) as HI.
  pose proof (inv_shape _ _ HI) as Hshape.
  unfold shape in Hshape. rewrite Hat in Hshape.
  destruct Hshape as (_ & -> & _ & Hst & Haws & _).
  destruct Haws as [[_ Hsr]|[[=] _]].
  assert (Hlt : S t < length (tasks s)).
  { rewrite (inv_length _ _ HI). unfold current. rewrite Hat. lia. }
  split; [|exact (request_interrupts h a sched s (S t) Hm Hsr Hlt)].
  intros cs Hdrq Hdt.
  pose proof (deliver_advances cs (tasks s)) as Hadv.
  assert (Hni : interrupted_by cs (tasks s) = false).
  { apply (deliver_moved cs (tasks s) (S t)). intros E.
    unfold is_done in Hdrq. rewrite E, Hsr in Hdrq. discriminate. }
  pose proof (main_step _ _ _ _ _ cs HL Hm Hni) as Hstep.
  rewrite (resume_wait L s cs _ _ _ HI Hat) in Hstep. cbv zeta in Hstep.
  change (tasks (set_tasks (deliver cs (tasks s)) s))
    with (deliver cs (tasks s)) in Hstep.
  rewrite Hdt, Hdrq, (proj2 (is_done_false _ _) Hsr) in Hstep.
  set (sd := set_tasks (deliver cs (tasks s)) s) in *.
  set (s1 := set_at (AwaitWait (S t) (Some t) [t]) (cancel t sd)) in *.
  pose proof (main_reach _ _ _ _ _ HL Hstep) as HI1.
  exists s1. split; [exact Hstep|]. split; [reflexivity|]. split.
  { unfold s1, sd. simpl_state. rewrite list_lookup_alter_eq.
    apply is_done_false in Hdt. unfold status_of in Hdt.
    destruct (deliver cs (tasks s) !! t) as [k|] eqn:Ek.
    - simpl. unfold request_cancel. now rewrite Hdt.
    - exfalso. apply lookup_ge_None in Ek.
      rewrite (advances_length _ _ Hadv), (inv_length _ _ HI) in Ek.
      unfold current in Ek. rewrite Hat in Ek. lia. }
  split; [reflexivity|]. split; [reflexivity|].
  intros cs2 o Ho.
  assert (Hat1 : at_ s1 = AwaitWait (S t) (Some t) [t]) by reflexivity.
  pose proof (deliver_advances cs2 (tasks s1)) as Hadv2.
  assert (Hd1 : is_done (tasks s1) (S t) = true).
  { unfold s1, sd, is_done. simpl_state. rewrite status_of_cancel.
    exact Hdrq. }
  destruct (Inv_slot L s1 t HI1 eq_refl) as (_ & r0 & _ & Hst1 & Hpr & _).
  rewrite (main_step _ _ _ _ _ cs2 HL Hstep)
    by (apply (deliver_moved cs2 (tasks s1) t); congruence).
  rewrite (resume_wait L s1 cs2 _ _ _ HI1 Hat1). cbv zeta.
  set (sd2 := set_tasks (deliver cs2 (tasks s1)) s1).
  assert (Hdt2 : is_done (tasks sd2) t = true).
  { unfold is_done, sd2. simpl_state. now rewrite Ho. }
  assert (Hdr2 : is_done (tasks sd2) (S t) = true).
  { unfold is_done, sd2. simpl_state.
    rewrite (advances_done _ _ Hadv2); auto. }
  assert (Hres2 : result (tasks sd2) (S t) = result (tasks s1) (S t)).
  { unfold sd2. simpl_state. now apply advances_result_done. }
  assert (Hlen2 : length (tasks sd2) = S (S t)).
  { unfold sd2. simpl_state. rewrite (advances_length _ _ Hadv2).
    rewrite (inv_length _ _ HI1). reflexivity. }
  rewrite Hdt2, Hdr2, response_done_eq.
  change (status_of (tasks sd2) t) with (status_of (deliver cs2 (tasks s1)) t).
  rewrite Ho.
  destruct o as [r'|e|].
  - split.
    + intros r Hr. apply after_wait_Ok; simpl_state; congruence.
    + intros e He. eexists. apply after_wait_Err. simpl_state. congruence.
  - reflexivity.
  - change (pipeline_result sd2) with (pipeline_result s1). rewrite Hpr.
    split.
    + intros r Hr. apply after_wait_Ok; simpl_state; congruence.
    + intros e He. eexists. apply after_wait_Err. simpl_state. congruence.
Qed.

Lemma C3_request_first_cancels_then_waits_witness :
  exists s1,
    main host_ok args_loop
      (sched_first_turn ++ [Complete [(2, Returned heard_again)]]) =
      Running s1 /\
    trace s1 = [Spawn 0; Consume 0; Spawn 1; Spawn 2] ++ [Cancel 1] /\
    at_ s1 = AwaitWait 2 (Some 1) [1].
Proof.
  destruct (proj1 (C3_request_first_cancels_then_waits host_ok args_loop
                     locals_loop sched_first_turn
                     (state_of (main host_ok args_loop sched_first_turn)) 2 1
                     eq_refl eq_refl eq_refl)
              [(2, Returned heard_again)] eq_refl eq_refl)
    as (s1 & H1 & H2 & _ & H4 & _).
  exists s1. split; [exact H1|]. split; [exact H2|exact H4].
Defined.

(** C3 as stated fails: after the barge-in the response ends by raising;
    [main] ends with that exception, the result of request 2 is never
    taken and no response is started from its transcript. *)
Lemma C3_counterexample :
  let m := main host_ok args_loop sched_cancel_then_error in
  (exists s, m = Failed tts_error s) /\
  status_of (tasks (state_of m)) 2 = Finished (Returned heard_again) /\
  (cancel_requested <$> tasks (state_of m) !! 1) = Some true /\
  trace (state_of m) = [Spawn 0; Consume 0; Spawn 1; Spawn 2; Cancel 1] /\
  length (tasks (state_of m)) = 3.
Proof. vm_compute. repeat split. eexists. reflexivity. Qed.

(** By evaluation: the request of the second turn raises
    [KeyboardInterrupt] while the response is pending.  The process ends
    with status 0; nothing was cancelled and nothing printed. *)
Lemma request_interrupt_run :
  let sched :=
    sched_first_turn ++ [Complete [(2, Raised KeyboardInterrupt)]] in
  script host_ok args_loop sched = Some (mkExit 0 None []) /\
  trace (state_of (main host_ok args_loop sched)) =
    [Spawn 0; Consume 0; Spawn 1; Spawn 2].
Proof. vm_compute. repeat split. Qed.

(** ** C5: which failures end [main] *)

Lemma main_cons h a sched ev more :
  main h a (sched ++ ev :: more) = main h a ((sched ++ [ev]) ++ more).
Proof. now rewrite <- app_assoc. Qed.

(** The step in which the response in the slot ends by raising. *)
Lemma step_response_raised h a L sched s t e cs more :
  setup h a = Ok L -> main h a sched = Running s ->
  response_slot s = Some t ->
  status_of (deliver cs (tasks s)) t = Finished (Raised e) ->
  main h a (sched ++ Complete cs :: more) =
  Failed e (set_tasks (deliver cs (tasks s)) s).
Proof.
  intros HL Hm Hslot Hr.
  pose proof (main_reach _ _ _ _ _ HL Hm) as HI.
  destruct (Inv_slot L s t HI Hslot) as (aws & r & Hat & Hst & _).
  rewrite main_cons. apply main_Failed_app.
  rewrite (main_step _ _ _ _ _ cs HL Hm)
    by (apply (deliver_moved cs (tasks s) t); congruence).
  rewrite (resume_wait L s cs _ _ _ HI Hat). cbv zeta.
  set (sd := set_tasks (deliver cs (tasks s)) s).
  assert (Hd : is_done (tasks sd) t = true).
  { unfold is_done, sd. simpl_state. now rewrite Hr. }
  rewrite Hd, response_done_eq.
  change (status_of (tasks sd) t) with (status_of (deliver cs (tasks s)) t).
  now rewrite Hr.
Qed.

(** The step in which the request is found to have raised. *)
Lemma step_request_raised h a L sched s rq rs aws e cs more :
  setup h a = Ok L -> main h a sched = Running s ->
  at_ s = AwaitWait rq rs aws ->
  status_of (deliver cs (tasks s)) rq = Finished (Raised e) ->
  (forall t, rs = Some t ->
     exists o, status_of (deliver cs (tasks s)) t = Finished o /\
               forall e', o <> Raised e') ->
  exists s', main h a (sched ++ Complete cs :: more) = Failed e s'.
Proof.
  intros HL Hm Hat Hr Hresp.
  pose proof (main_reach _ _ _ _ _ HL Hm) as HI.
  assert (Hni : interrupted_by cs (tasks s) = false).
  { apply (wait_over_not_interrupted L s rq rs aws cs HI Hat).
    - unfold is_done. now rewrite Hr.
    - intros t Ht. destruct (Hresp t Ht) as (o & Ho & _).
      unfold is_done. now rewrite Ho. }
  assert (Hgoal : exists s', main h a (sched ++ [Complete cs]) = Failed e s').
  { rewrite (main_step _ _ _ _ _ cs HL Hm Hni).
    rewrite (resume_wait L s cs _ _ _ HI Hat). cbv zeta.
    set (sd := set_tasks (deliver cs (tasks s)) s).
    assert (Hd : is_done (tasks sd) rq = true).
    { unfold is_done, sd. simpl_state. now rewrite Hr. }
    assert (He : forall s1, tasks s1 = tasks sd ->
              result (tasks s1) rq = Err e).
    { intros s1 ->. unfold result, sd. simpl_state. now rewrite Hr. }
    rewrite Hd. destruct rs as [t|].
    - destruct (Hresp t eq_refl) as (o & Ho & Hne).
      assert (Hdt : is_done (tasks sd) t = true).
      { unfold is_done, sd. simpl_state. now rewrite Ho. }
      rewrite Hdt, response_done_eq.
      change (status_of (tasks sd) t)
        with (status_of (deliver cs (tasks s)) t).
      rewrite Ho.
      destruct (Inv_slot L s t HI) as (_ & r0 & _ & _ & Hpr & _).
      { unfold response_slot. now rewrite Hat. }
      destruct o as [r'|e'|].
      + eexists. apply after_wait_Err. now apply He.
      + now destruct (Hne e').
      + change (pipeline_result sd) with (pipeline_result s). rewrite Hpr.
        eexists. apply after_wait_Err. now apply He.
    - eexists. apply after_wait_Err. now apply He. }
  destruct Hgoal as [s' Hs']. exists s'.
  rewrite main_cons. now apply main_Failed_app.
Qed.

(** C5 (as amended).  A response that ends by raising ends [main] with
    that exception, whether [Task.cancel] had been called on it or not;
    only a response that ends in the cancelled state is passed over: the
    step in which it is processed fails only with a failure of the
    request.  A request that has raised ends [main] with its exception
    once the response in the slot, if there is one, has ended otherwise
    than by raising. *)
Theorem C5_which_failures_end_main h a L sched s cs more :
  setup h a = Ok L -> main h a sched = Running s ->
  (forall t e, response_slot s = Some t ->
     status_of (deliver cs (tasks s)) t = Finished (Raised e) ->
     main h a (sched ++ Complete cs :: more) =
     Failed e (set_tasks (deliver cs (tasks s)) s)) /\
  (forall t e s', response_slot s = Some t ->
     status_of (deliver cs (tasks s)) t = Finished Cancelled ->
     main h a (sched ++ [Complete cs]) = Failed e s' ->
     result (deliver cs (tasks s)) (current s) = Err e) /\
  (forall rq rs aws e, at_ s = AwaitWait rq rs aws ->
     status_of (deliver cs (tasks s)) rq = Finished (Raised e) ->
     (forall t, rs = Some t ->
        exists o, status_of (deliver cs (tasks s)) t = Finished o /\
                  forall e', o <> Raised e') ->
     exists s', main h a (sched ++ Complete cs :: more) = Failed e s').
Proof.
  intros HL Hm. split; [|split].
  - intros t e. now apply (step_response_raised h a L).
  - intros t e s' Hslot Hc Hf.
    destruct (step_response_cancelled h a L sched s t cs HL Hm Hslot Hc)
      as (r & Hcur & _ & _ & _ & Hstep).
    cbv zeta in Hstep. rewrite Hstep in Hf. rewrite Hcur.
    destruct (is_done (deliver cs (tasks s)) (S t)); [|discriminate].
    now apply after_wait_Failed in Hf.
  - intros rq rs aws e. now apply (step_request_raised h a L).
Qed.

Lemma C5_which_failures_end_main_witness :
  exists s',
    main host_ok args_loop
      (sched_first_turn ++ [Complete [(1, Raised tts_error)]]) =
    Failed tts_error s'.
Proof.
  destruct (C5_which_failures_end_main host_ok args_loop locals_loop
              sched_first_turn
              (state_of (main host_ok args_loop sched_first_turn))
              [(1, Raised tts_error)] [] eq_refl eq_refl)
    as (H & _).
  eexists. apply (H 1 tts_error); reflexivity.
Defined.

(** C5 as stated fails: [Task.cancel] has been called on response 1, the
    response then raises, and the exception is not suppressed: it ends
    [main]. *)
Lemma C5_counterexample :
  (cancel_requested <$>
     tasks (state_of (main host_ok args_loop sched_barge_in)) !! 1) =
    Some true /\
  exists s,
    main host_ok args_loop
      (sched_barge_in ++ [Complete [(1, Raised tts_error)]]) =
    Failed tts_error s /\
    script host_ok args_loop
      (sched_barge_in ++ [Complete [(1, Raised tts_error)]]) =
    Some (mkExit 1 (Some tts_error) []).
Proof. vm_compute. split; [reflexivity|]. eexists. split; reflexivity. Qed.

(** ** C6: a request without a transcript *)

(** Lines 171-174 and 131-149. *)
Lemma after_wait_no_transcript L rq s r :
  result (tasks s) rq = Ok r -> pr_asr_transcript r = None ->
  length (tasks s) = S rq ->
  exists s',
    after_wait L rq None s = Running s' /\
    trace s' = trace s ++ [Consume rq; Print r; Spawn (S rq)] /\
    tasks s' = tasks s ++ [mkTask Request (request_kwargs L) false Pending] /\
    at_ s' = AwaitWait (S rq) None [S rq].
Proof.
  intros Hres Htr Hlen. unfold after_wait. rewrite Hres, Htr.
  eexists. split; [reflexivity|]. unfold start_request. simpl_state.
  rewrite Hlen. rewrite <- !app_assoc. simpl. auto.
Qed.

(** The step in which a request without a transcript is processed. *)
Lemma step_request_no_transcript h a L sched s rq rs aws cs r :
  setup h a = Ok L -> main h a sched = Running s ->
  at_ s = AwaitWait rq rs aws ->
  result (deliver cs (tasks s)) rq = Ok r ->
  pr_asr_transcript r = None ->
  (forall t, rs = Some t ->
     exists o, status_of (deliver cs (tasks s)) t = Finished o /\
               forall e, o <> Raised e) ->
  exists s' pre,
    main h a (sched ++ [Complete cs]) = Running s' /\
    trace s' = pre ++ [Consume rq; Print r; Spawn (S rq)] /\
    tasks s' =
      deliver cs (tasks s) ++
      [mkTask Request (request_kwargs L) false Pending] /\
    at_ s' = AwaitWait (S rq) None [S rq].
Proof.
  intros HL Hm Hat Hres Htr Hresp.
  pose proof (main_reach _ _ _ _ _ HL Hm) as HI.
  pose proof (deliver_advances cs (tasks s)) as Hadv.
  assert (Hni : interrupted_by cs (tasks s) = false).
  { apply (wait_over_not_interrupted L s rq rs aws cs HI Hat).
    - eapply result_Ok_done; eauto.
    - intros t Ht. destruct (Hresp t Ht) as (o & Ho & _).
      unfold is_done. now rewrite Ho. }
  rewrite (main_step _ _ _ _ _ cs HL Hm Hni).
  rewrite (resume_wait L s cs _ _ _ HI Hat). cbv zeta.
  set (sd := set_tasks (deliver cs (tasks s)) s).
  assert (Hd : is_done (tasks sd) rq = true).
  { unfold sd. simpl_state. eapply result_Ok_done; eauto. }
  assert (Hlen : length (tasks sd) = S rq).
  { unfold sd. simpl_state. rewrite (advances_length _ _ Hadv).
    rewrite (inv_length _ _ HI). unfold current. now rewrite Hat. }
  assert (Hfin : forall s1, tasks s1 = tasks sd ->
            exists s' pre,
              after_wait L rq None s1 = Running s' /\
              trace s' = pre ++ [Consume rq; Print r; Spawn (S rq)] /\
              tasks s' =
                deliver cs (tasks s) ++
                [mkTask Request (request_kwargs L) false Pending] /\
              at_ s' = AwaitWait (S rq) None [S rq]).
  { intros s1 E.
    assert (H1 : result (tasks s1) rq = Ok r) by (rewrite E; exact Hres).
    assert (H2 : length (tasks s1) = S rq) by (rewrite E; exact Hlen).
    destruct (after_wait_no_transcript L rq s1 r H1 Htr H2)
      as (s' & H3 & H4 & H5 & H6).
    exists s', (trace s1). rewrite E in H5. auto. }
  rewrite Hd. destruct rs as [t|].
  - destruct (Hresp t eq_refl) as (o & Ho & Hne).
    assert (Hdt : is_done (tasks sd) t = true).
    { unfold is_done, sd. simpl_state. now rewrite Ho. }
    rewrite Hdt, response_done_eq.
    change (status_of (tasks sd) t) with (status_of (deliver cs (tasks s)) t).
    rewrite Ho.
    destruct (Inv_slot L s t HI) as (_ & r0 & _ & _ & Hpr & _).
    { unfold response_slot. now rewrite Hat. }
    destruct o as [r'|e'|].
    + now apply Hfin.
    + now destruct (Hne e').
    + change (pipeline_result sd) with (pipeline_result s). rewrite Hpr.
      now apply Hfin.
  - now apply Hfin.
Qed.

(** Every response invocation was started from the result of the request
    before it, and that result carries a transcript. *)
Lemma Inv_response_seeded L s i k :
  Inv L s -> tasks s !! i = Some k -> role k = Response ->
  exists r0,
    role_of (tasks s) (pred i) = Some Request /\
    result (tasks s) (pred i) = Ok r0 /\
    pr_asr_transcript r0 <> None /\
    kwargs k = response_kwargs L r0.
Proof.
  intros HI Hk Hr.
  pose proof (mid_kwargs _ _ _ (inv_mid _ _ HI) i k Hk) as H.
  rewrite Hr in H. destruct H as (r0 & _ & H1 & H2 & H3 & H4). eauto.
Qed.

(** The step in which the request is found done while the response is
    still pending: lines 158-167. *)
Lemma step_request_first h a L sched s rq t cs :
  setup h a = Ok L -> main h a sched = Running s ->
  at_ s = AwaitWait rq (Some t) [rq; t] ->
  is_done (deliver cs (tasks s)) rq = true ->
  is_done (deliver cs (tasks s)) t = false ->
  main h a (sched ++ [Complete cs]) =
  Running (set_at (AwaitWait rq (Some t) [t])
             (cancel t (set_tasks (deliver cs (tasks s)) s))).
Proof.
  intros HL Hm Hat Hdrq Hdt.
  pose proof (main_reach _ _ _ _ _ HL Hm) as HI.
  pose proof (inv_shape _ _ HI) as Hshape.
  unfold shape in Hshape. rewrite Hat in Hshape.
  destruct Hshape as (_ & -> & _ & Hst & Haws & _).
  destruct Haws as [[_ Hsr]|[[=] _]].
  assert (Hni : interrupted_by cs (tasks s) = false).
  { apply (deliver_moved cs (tasks s) (S t)). intros E.
    unfold is_done in Hdrq. rewrite E, Hsr in Hdrq. discriminate. }
  rewrite (main_step _ _ _ _ _ cs HL Hm Hni).
  rewrite (resume_wait L s cs _ _ _ HI Hat). cbv zeta.
  change (tasks (set_tasks (deliver cs (tasks s)) s))
    with (deliver cs (tasks s)).
  now rewrite Hdt, Hdrq, (proj2 (is_done_false _ _) Hsr).
Qed.

(** C6 (as amended).  No response invocation is ever started from a
    request result without a transcript: every response continues a
    request that returned a transcript.  When the completion of a request
    whose result carries no transcript is processed, the result is taken,
    its record is printed and the next request is started: the only
    invocation added is a request, and the response slot is empty.  That
    happens at once only if no response is in flight, or if the response
    in the slot has ended as well, otherwise than by raising.  If the
    response is still pending, it is asked to cancel and [main] goes on
    waiting for it: nothing is printed and no request is started in that
    step.  If the response ends by raising, [main] ends with that
    exception, and the record of the request is never printed. *)
Theorem C6_no_transcript_no_response h a L sched s :
  setup h a = Ok L -> main h a sched = Running s ->
  (forall i k, tasks s !! i = Some k -> role k = Response ->
     exists r0,
       role_of (tasks s) (pred i) = Some Request /\
       result (tasks s) (pred i) = Ok r0 /\
       pr_asr_transcript r0 <> None /\
       kwargs k = response_kwargs L r0) /\
  (forall rq rs aws cs r,
     at_ s = AwaitWait rq rs aws ->
     result (deliver cs (tasks s)) rq = Ok r ->
     pr_asr_transcript r = None ->
     (forall t, rs = Some t ->
        exists o, status_of (deliver cs (tasks s)) t = Finished o /\
                  forall e, o <> Raised e) ->
     exists s' pre,
       main h a (sched ++ [Complete cs]) = Running s' /\
       trace s' = pre ++ [Consume rq; Print r; Spawn (S rq)] /\
       tasks s' =
         deliver cs (tasks s) ++
         [mkTask Request (request_kwargs L) false Pending] /\
       at_ s' = AwaitWait (S rq) None [S rq]) /\
  (forall rq t cs r,
     at_ s = AwaitWait rq (Some t) [rq; t] ->
     result (deliver cs (tasks s)) rq = Ok r ->
     pr_asr_transcript r = None ->
     is_done (deliver cs (tasks s)) t = false ->
     exists s1,
       main h a (sched ++ [Complete cs]) = Running s1 /\
       trace s1 = trace s ++ [Cancel t] /\
       length (tasks s1) = length (tasks s) /\
       at_ s1 = AwaitWait rq (Some t) [t]) /\
  (forall rq t aws cs e,
     at_ s = AwaitWait rq (Some t) aws ->
     status_of (deliver cs (tasks s)) t = Finished (Raised e) ->
     exists s',
       main h a (sched ++ [Complete cs]) = Failed e s' /\
       trace s' = trace s).
Proof.
  intros HL Hm. split; [|split; [|split]].
  - intros i k. apply Inv_response_seeded. eapply main_reach; eauto.
  - intros rq rs aws cs r. now apply (step_request_no_transcript h a L).
  - intros rq t cs r Hat Hres _ Hdt.
    eexists. split.
    + apply (step_request_first h a L); eauto using result_Ok_done.
    + simpl_state. split; [reflexivity|]. split; [|reflexivity].
      rewrite length_alter.
      apply (advances_length _ _ (deliver_advances cs (tasks s))).
  - intros rq t aws cs e Hat Hr. eexists. split.
    + apply (step_response_raised h a L sched s t e cs [] HL Hm); auto.
      unfold response_slot. now rewrite Hat.
    + reflexivity.
Qed.

Lemma C6_no_transcript_no_response_witness :
  exists s' pre,
    main host_ok args_loop
      (sched_silent_barge_in ++ [Complete [(1, Cancelled)]]) = Running s' /\
    trace s' = pre ++ [Consume 2; Print silence; Spawn 3] /\
    tasks s' =
      deliver [(1, Cancelled)]
        (tasks (state_of (main host_ok args_loop sched_silent_barge_in))) ++
      [mkTask Request
         (mkRunArgs (mkRhasspy "config") "default" 1024 0 None None None
            None None None (Some ASR))
         false Pending] /\
    at_ s' = AwaitWait 3 None [3].
Proof.
  destruct (C6_no_transcript_no_response host_ok args_loop locals_loop
              sched_silent_barge_in
              (state_of (main host_ok args_loop sched_silent_barge_in))
              eq_refl eq_refl)
    as (_ & H & _).
  apply (H 2 (Some 1) [1] [(1, Cancelled)] silence); try reflexivity.
  intros t [= <-]. exists Cancelled. split; [reflexivity|discriminate].
Defined.

(** C6 as stated fails: the request of the second turn returns without a
    transcript while the response of the first is still pending.  Its
    record is not printed and no request is started then: the response is
    asked to cancel and awaited.  When the response then ends by raising,
    the process ends without the record. *)
Lemma C6_counterexample :
  let m := main host_ok args_loop sched_silent_barge_in in
  result (tasks (state_of m)) 2 = Ok silence /\
  pr_asr_transcript silence = None /\
  stdout (state_of m) = [] /\
  trace (state_of m) = [Spawn 0; Consume 0; Spawn 1; Spawn 2; Cancel 1] /\
  at_ (state_of m) = AwaitWait 2 (Some 1) [1] /\
  script host_ok args_loop
    (sched_silent_barge_in ++ [Complete [(1, Raised tts_error)]]) =
  Some (mkExit 1 (Some tts_error) []).
Proof. vm_compute. repeat split. Qed.

(** * Further properties of [main] *)

(** ** What [asyncio.wait] is given (lines 144-149, 165-167) *)

(** X4.  At every suspension of the second loop the set handed to
    [asyncio.wait] is not empty and holds no task twice; it holds exactly
    those of [request_task] and [response_task] that are pending, and no
    invocation is in flight outside of it. *)
Theorem wait_set_is_the_pending_slots h a sched s rq rs aws :
  main h a sched = Running s -> at_ s = AwaitWait rq rs aws ->
  aws <> [] /\ List.NoDup aws /\
  (forall t, In t aws <->
     (t = rq \/ rs = Some t) /\ status_of (tasks s) t = Pending) /\
  (forall i, i < length (tasks s) ->
     status_of (tasks s) i = Pending -> In i aws).
Proof.
  intros Hm Hat. destruct (main_Inv _ _ _ _ Hm) as (L & _ & HI).
  pose proof (inv_shape _ _ HI) as Hshape.
  assert (Hall : forall i, i < length (tasks s) ->
            status_of (tasks s) i = Pending -> i = rq \/ rs = Some i).
  { intros i Hi Hp.
    destruct (Inv_in_flight L s i HI Hi Hp) as [[E _]|[E _]].
    - left. unfold current in E. now rewrite Hat in E.
    - right. unfold response_slot in E. now rewrite Hat in E. }
  unfold shape in Hshape. rewrite Hat in Hshape.
  destruct rs as [t|].
  - destruct Hshape as (_ & -> & _ & Hst & Haws & _).
    destruct Haws as [[-> Hsr]|[-> Hdr]].
    + split; [discriminate|]. split.
      { apply List.NoDup_cons; [simpl; lia|].
        apply List.NoDup_cons; [simpl; tauto|apply List.NoDup_nil]. }
      split.
      * intros x. simpl. split.
        -- intros [<-|[<-|[]]]; auto.
        -- intros [[->|[= ->]] _]; auto.
      * intros i Hi Hp. simpl.
        destruct (Hall i Hi Hp) as [->|[= ->]]; auto.
    + apply is_done_status in Hdr as [o Ho].
      split; [discriminate|]. split.
      { apply List.NoDup_cons; [simpl; tauto|apply List.NoDup_nil]. }
      split.
      * intros x. simpl. split.
        -- intros [<-|[]]; auto.
        -- intros [[->|[= ->]] Hp]; auto. congruence.
      * intros i Hi Hp. simpl.
        destruct (Hall i Hi Hp) as [->|[= ->]]; auto. congruence.
  - destruct Hshape as (_ & -> & Hs).
    split; [discriminate|]. split.
    { apply List.NoDup_cons; [simpl; tauto|apply List.NoDup_nil]. }
    split.
    + intros x. simpl. split.
      * intros [<-|[]]; auto.
      * intros [[->|[=]] _]; auto.
    + intros i Hi Hp. simpl.
      destruct (Hall i Hi Hp) as [->|[=]]; auto.
Qed.

Lemma wait_set_is_the_pending_slots_witness :
  [1] <> [] /\ List.NoDup [1] /\
  (forall t, In t [1] <->
     (t = 2 \/ Some 1 = Some t) /\
     status_of (tasks (state_of (main host_ok args_loop sched_barge_in))) t =
       Pending) /\
  (forall i,
     i < length (tasks (state_of (main host_ok args_loop sched_barge_in))) ->
     status_of (tasks (state_of (main host_ok args_loop sched_barge_in))) i =
       Pending -> In i [1]).
Proof.
  apply (wait_set_is_the_pending_slots host_ok args_loop sched_barge_in
           (state_of (main host_ok args_loop sched_barge_in)) 2 (Some 1) [1]);
    reflexivity.
Defined.

(** ** Where the printed records come from *)

Lemma record_of_length (ts : list Task) (i : nat) :
  length (record_of ts i) <= 1.
Proof.
  unfold record_of.
  destruct (role_of ts i) as [[]|]; destruct (status_of ts i) as [|[r|e|]];
    simpl; try lia.
  - destruct (pr_asr_transcript r); simpl; lia.
  - destruct (result ts (pred i)); simpl; lia.
Qed.

Lemma record_of_In (ts : list Task) (i : nat) r :
  In r (record_of ts i) ->
  status_of ts i = Finished (Returned r) \/
  1 <= i /\ status_of ts (pred i) = Finished (Returned r).
Proof.
  unfold record_of.
  destruct (role_of ts i) as [[]|];
    destruct (status_of ts i) as [|[r'|e|]] eqn:Es; simpl; try tauto.
  - intros [->|[]]. auto.
  - destruct (pr_asr_transcript r'); simpl; [tauto|]. intros [->|[]]. auto.
  - intros [->|[]]. auto.
  - destruct (result ts (pred i)) as [r0|] eqn:E; simpl; [|tauto].
    intros [->|[]]. apply result_Ok_status in E.
    destruct i as [|i]; [|right; split; [lia|exact E]].
    simpl in E. congruence.
Qed.

Lemma records_length (ts : list Task) (n : nat) : length (records ts n) <= n.
Proof.
  induction n as [|n IH]; [simpl; lia|].
  rewrite records_S, length_app. pose proof (record_of_length ts n). lia.
Qed.

Lemma records_In (ts : list Task) (n : nat) r :
  In r (records ts n) ->
  exists i, i < n /\ status_of ts i = Finished (Returned r).
Proof.
  unfold records. rewrite in_flat_map. intros (i & Hi & Hr).
  apply in_seq in Hi. apply record_of_In in Hr as [H|[H1 H2]].
  - exists i. split; [lia|exact H].
  - exists (pred i). split; [lia|exact H2].
Qed.

(** X8.  At every suspension of [main], every record on [sys.stdout] is
    the result that an invocation started before the current one has
    returned, and there are no more records than such invocations. *)
Theorem printed_records_are_returned_results h a sched s :
  main h a sched = Running s ->
  length (stdout s) <= current s /\
  (forall r, In r (stdout s) ->
     exists i, i < current s /\
               status_of (tasks s) i = Finished (Returned r)).
Proof.
  intros Hm. destruct (main_Inv _ _ _ _ Hm) as (L & _ & HI).
  rewrite (Inv_stdout L s HI). split.
  - apply records_length.
  - intros r. apply records_In.
Qed.

Lemma printed_records_are_returned_results_witness :
  let s := state_of (main host_ok args_loop sched_cancelled) in
  length (stdout s) <= current s /\
  (forall r, In r (stdout s) ->
     exists i, i < current s /\
               status_of (tasks s) i = Finished (Returned r)).
Proof.
  apply (printed_records_are_returned_results host_ok args_loop
           sched_cancelled).
  vm_compute. reflexivity.
Defined.

(** ** Where the exceptions of [main] come from *)





(** ** The response completes first (lines 151-167) *)

(** X9.  When the response returns while the request is still pending,
    its result is taken and printed and the slot is cleared; no task is
    started or cancelled, and [main] goes on waiting for the same request
    alone. *)
Theorem response_first_clears_the_slot h a L sched s rq t cs r' :
  setup h a = Ok L -> main h a sched = Running s ->
  at_ s = AwaitWait rq (Some t) [rq; t] ->
  status_of (deliver cs (tasks s)) t = Finished (Returned r') ->
  is_done (deliver cs (tasks s)) rq = false ->
  main h a (sched ++ [Complete cs]) =
  Running (mkState (deliver cs (tasks s))
                   (trace s ++ [Consume t; Print r'])
                   (Some r')
                   (AwaitWait rq None [rq])).
Proof.
  intros HL Hm Hat Hr Hd.
  pose proof (main_reach _ _ _ _ _ HL Hm) as HI.
  destruct (Inv_slot L s t HI) as (_ & _ & _ & Hst & _).
  { unfold response_slot. now rewrite Hat. }
  rewrite (main_step _ _ _ _ _ cs HL Hm)
    by (apply (deliver_moved cs (tasks s) t); congruence).
  rewrite (resume_wait L s cs _ _ _ HI Hat). cbv zeta.
  change (tasks (set_tasks (deliver cs (tasks s)) s))
    with (deliver cs (tasks s)).
  unfold is_done at 1. rewrite Hr, Hd, response_done_eq.
  change (tasks (set_tasks (deliver cs (tasks s)) s))
    with (deliver cs (tasks s)).
  rewrite Hr. unfold print, consume, log, set_at, set_tasks. simpl.
  now rewrite <- app_assoc.
Qed.

Lemma response_first_clears_the_slot_witness :
  main host_ok args_loop
    (sched_first_turn ++ [Complete [(1, Returned replied)]]) =
  Running
    (mkState
       (deliver [(1, Returned replied)]
          (tasks (state_of (main host_ok args_loop sched_first_turn))))
       (trace (state_of (main host_ok args_loop sched_first_turn)) ++
        [Consume 1; Print replied])
       (Some replied)
       (AwaitWait 2 None [2])).
Proof.
  apply (response_first_clears_the_slot host_ok args_loop locals_loop
           sched_first_turn
           (state_of (main host_ok args_loop sched_first_turn)) 2 1);
    reflexivity.
Defined.

(** ** Which tasks are asked to cancel (lines 158-163) *)

Lemma cancel_flag_advances (ts ts' : list Task) (i : nat) :
  Forall2 advances ts ts' -> cancel_flag ts' i = cancel_flag ts i.
Proof.
  intros Hadv. unfold cancel_flag. destruct (ts !! i) as [k|] eqn:E.
  - destruct (advances_lookup _ _ Hadv _ _ E) as (k' & -> & (_ & _ & C & _)).
    exact C.
  - now rewrite (advances_lookup_None _ _ Hadv _ E).
Qed.

Lemma cancel_flag_app_l (ts : list Task) (k : Task) (i : nat) :
  i < length ts -> cancel_flag (ts ++ [k]) i = cancel_flag ts i.
Proof. intros H. unfold cancel_flag. now rewrite lookup_app_l. Qed.

Lemma cancel_flag_ge (ts : list Task) (i : nat) :
  length ts <= i -> cancel_flag ts i = false.
Proof.
  intros H. unfold cancel_flag. now rewrite (proj2 (lookup_ge_None ts i) H).
Qed.

Lemma cancel_flag_new (ts : list Task) r kw (i : nat) :
  cancel_flag (ts ++ [mkTask r kw false Pending]) i = cancel_flag ts i.
Proof.
  destruct (Nat.lt_ge_cases i (length ts)) as [Hi|Hi].
  - now apply cancel_flag_app_l.
  - rewrite (cancel_flag_ge ts i Hi). unfold cancel_flag.
    rewrite lookup_app_r by assumption.
    destruct (i - length ts) as [|d]; simpl; [reflexivity|].
    now destruct d.
Qed.

Lemma cancel_flag_cancel_eq (ts : list Task) (t : nat) :
  t < length ts -> status_of ts t = Pending ->
  cancel_flag (alter request_cancel t ts) t = true.
Proof.
  intros Ht Hp. unfold cancel_flag, status_of in *.
  rewrite list_lookup_alter_eq.
  destruct (ts !! t) as [k|] eqn:E; simpl.
  - unfold request_cancel. now rewrite Hp.
  - apply lookup_ge_None in E. lia.
Qed.

Lemma cancel_flag_cancel_ne (ts : list Task) (t i : nat) :
  t <> i -> cancel_flag (alter request_cancel t ts) i = cancel_flag ts i.
Proof.
  intros H. unfold cancel_flag. now rewrite list_lookup_alter_ne.
Qed.

Lemma In_Cancel_snoc (tr : list Action) x i :
  In (Cancel i) (tr ++ [x]) <-> In (Cancel i) tr \/ x = Cancel i.
Proof. rewrite in_app_iff. simpl. tauto. Qed.

(** Lines 151-156 ask no task to cancel. *)
Lemma response_done_flags t s s1 :
  response_done t s = Ok s1 ->
  tasks s1 = tasks s /\ at_ s1 = at_ s /\
  forall i, In (Cancel i) (trace s1) <-> In (Cancel i) (trace s).
Proof.
  rewrite response_done_eq.
  destruct (status_of (tasks s) t) as [|[r|e|]]; try discriminate.
  - intros [= <-]. simpl_state. split; [auto|]. split; [auto|].
    intros i. rewrite !In_Cancel_snoc. split; [|tauto].
    intros [[H|H]|H]; auto; discriminate.
  - destruct (pipeline_result s) as [r|]; [|discriminate].
    intros [= <-]. simpl_state. split; [auto|]. split; [auto|].
    intros i. rewrite In_Cancel_snoc. split; [|tauto].
    intros [H|H]; auto; discriminate.
Qed.

(** Lines 169-189 and 131-149 ask no task to cancel, and the response
    they start has not been asked to. *)
Lemma after_wait_Barge L rq s s' :
  length (tasks s) = S rq ->
  (forall i, cancel_flag (tasks s) i = true ->
     role_of (tasks s) i = Some Response) ->
  (forall i, In (Cancel i) (trace s) <-> cancel_flag (tasks s) i = true) ->
  after_wait L rq None s = Running s' ->
  Barge s'.
Proof.
  intros Hlen B1 B2 Haw. unfold after_wait in Haw.
  destruct (result (tasks s) rq) as [r|e]; [|discriminate].
  destruct (pr_asr_transcript r) as [tr|].
  - inversion Haw; subst s'; clear Haw.
    unfold start_request. simpl_state.
    rewrite !length_app, Hlen. simpl length. rewrite Nat.add_1_r.
    set (k1 := mkTask Response _ _ _). set (k2 := mkTask Request _ _ _).
    assert (Hl1 : length (tasks s ++ [k1]) = S (S rq)).
    { rewrite length_app, Hlen. simpl. lia. }
    assert (Hf : forall i, cancel_flag ((tasks s ++ [k1]) ++ [k2]) i =
                           cancel_flag (tasks s) i).
    { intros i. unfold k1, k2. now rewrite !cancel_flag_new. }
    constructor; simpl_state.
    + intros i. rewrite Hf. intros H. pose proof (B1 i H) as Hr.
      assert (Hi : i < length (tasks s)).
      { unfold role_of in Hr. destruct (tasks s !! i) eqn:E; [|discriminate].
        eapply lookup_lt_Some; eauto. }
      rewrite !role_of_app_l by (rewrite ?length_app; simpl; lia). exact Hr.
    + intros i. rewrite Hf, <- B2, !In_Cancel_snoc. split; [|tauto].
      intros [[[H|H]|H]|H]; auto; discriminate.
    + intros rq' t aws [= <- <- <-]. rewrite Hf.
      rewrite (cancel_flag_ge (tasks s)) by lia.
      unfold is_done. rewrite <- Hl1. now rewrite status_of_app_new.
  - inversion Haw; subst s'; clear Haw.
    unfold start_request. simpl_state. rewrite Hlen.
    set (k2 := mkTask Request _ _ _).
    assert (Hf : forall i, cancel_flag (tasks s ++ [k2]) i =
                           cancel_flag (tasks s) i).
    { intros i. unfold k2. now rewrite cancel_flag_new. }
    constructor; simpl_state.
    + intros i. rewrite Hf. intros H. pose proof (B1 i H) as Hr.
      assert (Hi : i < length (tasks s)).
      { unfold role_of in Hr. destruct (tasks s !! i) eqn:E; [|discriminate].
        eapply lookup_lt_Some; eauto. }
      rewrite role_of_app_l by lia. exact Hr.
    + intros i. rewrite Hf, <- B2, !In_Cancel_snoc. split; [|tauto].
      intros [[[H|H]|H]|H]; auto; discriminate.
    + intros rq' t aws [=].
Qed.

Lemma Barge_Flags s : Barge s -> Flags s.
Proof. intros [B1 B2 _]. split; auto. Qed.

Lemma Flags_keep s s' :
  (forall i, cancel_flag (tasks s') i = cancel_flag (tasks s) i) ->
  (forall i, role_of (tasks s') i = role_of (tasks s) i) ->
  (forall i, In (Cancel i) (trace s') <-> In (Cancel i) (trace s)) ->
  Flags s -> Flags s'.
Proof.
  intros Hf Hr Ht [B1 B2]. split.
  - intros i. rewrite Hf, Hr. apply B1.
  - intros i. rewrite Hf, Ht. apply B2.
Qed.

Lemma Flags_deliver s cs :
  Flags s -> Flags (set_tasks (deliver cs (tasks s)) s).
Proof.
  pose proof (deliver_advances cs (tasks s)) as Hadv.
  apply Flags_keep; simpl_state.
  - intros i. now apply cancel_flag_advances.
  - intros i. now apply advances_role_of.
  - tauto.
Qed.

Lemma Flags_response_done t s s1 :
  response_done t s = Ok s1 -> Flags s -> Flags s1.
Proof.
  intros H. destruct (response_done_flags _ _ _ H) as (E & _ & Ht).
  apply Flags_keep; auto; intros i; now rewrite E.
Qed.

Lemma Flags_print_consume c r s :
  Flags s -> Flags (print r (consume c r s)).
Proof.
  apply Flags_keep; simpl_state; auto.
  intros i. rewrite !In_Cancel_snoc. split; [|tauto].
  intros [[H|H]|H]; auto; discriminate.
Qed.

Lemma Flags_spawn r kw s : Flags s -> Flags (snd (spawn r kw s)).
Proof.
  intros [B1 B2]. simpl_state. split; simpl_state.
  - intros i. rewrite cancel_flag_new. intros H. pose proof (B1 i H) as Hr.
    assert (Hi : i < length (tasks s)).
    { unfold role_of in Hr. destruct (tasks s !! i) eqn:E; [|discriminate].
      eapply lookup_lt_Some; eauto. }
    rewrite role_of_app_l by lia. exact Hr.
  - intros i. rewrite cancel_flag_new, <- B2, In_Cancel_snoc.
    split; [|tauto]. intros [H|H]; auto; discriminate.
Qed.

Lemma Flags_Barge s :
  Flags s -> (forall rq t aws, at_ s <> AwaitWait rq (Some t) aws) ->
  Barge s.
Proof.
  intros [B1 B2] Hat. constructor; auto.
  intros rq t aws H. now destruct (Hat rq t aws).
Qed.

Lemma start_request_Barge L s : Flags s -> Barge (start_request L None s).
Proof.
  intros HF. apply Flags_Barge.
  - apply (Flags_keep (snd (spawn Request (request_kwargs L) s)));
      [reflexivity|reflexivity|reflexivity|]. now apply Flags_spawn.
  - intros rq t aws. unfold start_request. simpl_state. discriminate.
Qed.

Lemma start_single_Barge L s : Flags s -> Barge (start_single L s).
Proof.
  intros HF. apply Flags_Barge.
  - apply (Flags_keep (snd (spawn Direct (single_kwargs L) s)));
      [reflexivity|reflexivity|reflexivity|]. now apply Flags_spawn.
  - intros rq t aws. unfold start_single. simpl_state. discriminate.
Qed.

Lemma resume_Barge L s cs s' :
  Inv L s -> Barge s ->
  resume L (set_tasks (deliver cs (tasks s)) s) = Running s' ->
  Barge s'.
Proof.
  intros HI HB Hrun.
  pose proof (deliver_advances cs (tasks s)) as Hadv.
  pose proof (inv_shape _ _ HI) as Hshape.
  pose proof (inv_length _ _ HI) as Hlen.
  pose proof (Flags_deliver s cs (Barge_Flags s HB)) as HF.
  set (sd := set_tasks (deliver cs (tasks s)) s) in *.
  assert (Hlen' : length (tasks sd) = S (current s)).
  { unfold sd. simpl_state. now rewrite (advances_length _ _ Hadv). }
  assert (Haw : forall s1 rq, current s = rq -> tasks s1 = tasks sd ->
            Flags s1 -> after_wait L rq None s1 = Running s' -> Barge s').
  { intros s1 rq <- E [F1 F2] H.
    apply (after_wait_Barge L (current s) s1 s'); auto.
    now rewrite E. }
  unfold shape, current in *.
  destruct (at_ s) as [c|rq rs aws] eqn:Hat.
  - unfold resume in Hrun. change (at_ sd) with (at_ s) in Hrun.
    rewrite Hat in Hrun. unfold on_await in Hrun.
    destruct (status_of (tasks sd) c) as [|o].
    + inversion Hrun; subst s'. apply Flags_Barge; auto.
      intros rq t aws. change (at_ sd) with (at_ s). rewrite Hat.
      discriminate.
    + destruct (result (tasks sd) c) as [r|e]; [|discriminate].
      destruct (negb (loop (args L))); inversion Hrun; subst s'.
      * apply start_request_Barge. now apply Flags_print_consume.
      * apply start_single_Barge. now apply Flags_print_consume.
  - unfold sd in Hrun. rewrite (resume_wait L s cs _ _ _ HI Hat) in Hrun.
    cbv zeta in Hrun. fold sd in Hrun.
    destruct Hshape as [Hr Hshape].
    destruct rs as [t|].
    + destruct Hshape as (-> & Hrt & Hst & Haws & _).
      destruct (is_done (tasks sd) t) eqn:Hdt.
      * destruct (response_done t sd) as [s1|e] eqn:Hrd; [|discriminate].
        pose proof (Flags_response_done _ _ _ Hrd HF) as HF1.
        destruct (response_done_flags _ _ _ Hrd) as (E1 & _).
        destruct (is_done (tasks sd) (S t)).
        -- eapply Haw; eauto.
        -- inversion Hrun; subst s'. apply Flags_Barge.
           ++ revert HF1. apply Flags_keep; reflexivity.
           ++ intros rq t0 aws0. simpl_state. discriminate.
      * assert (Hidle : cancel_flag (tasks sd) t = is_done (tasks sd) (S t) ->
                  Barge sd).
        { intros H. destruct HF as [F1 F2]. constructor; auto.
          intros rq t0 aws0. change (at_ sd) with (at_ s). rewrite Hat.
          intros [= <- <- <-]. exact H. }
        assert (Hflag : cancel_flag (tasks sd) t = is_done (tasks s) (S t)).
        { unfold sd. simpl_state. rewrite (cancel_flag_advances _ _ _ Hadv).
          eapply barge_slot; eauto. }
        destruct (is_done (tasks sd) (S t)) eqn:Hdr.
        -- destruct (is_done (tasks s) (S t)) eqn:Hdr0.
           ++ inversion Hrun; subst s'. apply Hidle. congruence.
           ++ inversion Hrun; subst s'; clear Hrun.
              assert (Ht : t < length (tasks sd)) by (rewrite Hlen'; lia).
              apply is_done_false in Hdt.
              assert (Hrt' : role_of (tasks sd) t = Some Response).
              { unfold sd. simpl_state.
                now rewrite (advances_role_of _ _ Hadv). }
              destruct HF as [F1 F2].
              constructor; simpl_state.
              ** intros i. rewrite role_of_cancel.
                 destruct (decide (t = i)) as [<-|Hne]; [auto|].
                 rewrite cancel_flag_cancel_ne by assumption. apply F1.
              ** intros i. rewrite In_Cancel_snoc.
                 destruct (decide (t = i)) as [<-|Hne].
                 --- rewrite cancel_flag_cancel_eq by assumption. tauto.
                 --- rewrite cancel_flag_cancel_ne by assumption.
                     rewrite F2. split; [|tauto].
                     intros [H|H]; [auto|congruence].
              ** intros rq t0 aws0 [= <- <- <-].
                 rewrite cancel_flag_cancel_eq by assumption.
                 unfold is_done. rewrite status_of_cancel. symmetry.
                 exact Hdr.
        -- inversion Hrun; subst s'. apply Hidle. rewrite Hflag.
           destruct (is_done (tasks s) (S t)) eqn:Hdr0; [|reflexivity].
           unfold is_done in Hdr. unfold sd in Hdr. simpl_state.
           rewrite (advances_done _ _ Hadv _ Hdr0) in Hdr.
           unfold is_done in Hdr0. congruence.
    + destruct (is_done (tasks sd) rq).
      * eapply Haw; eauto.
      * inversion Hrun; subst s'. apply Flags_Barge; auto.
        intros rq0 t aws0. change (at_ sd) with (at_ s). rewrite Hat.
        discriminate.
Qed.

Lemma Flags_init : Flags init.
Proof.
  split.
  - intros i. unfold cancel_flag. simpl. discriminate.
  - intros i. unfold cancel_flag. simpl. split; [tauto|discriminate].
Qed.

Lemma run_Barge L sched s : run L sched = Running s -> Barge s.
Proof.
  revert s. induction sched as [|ev sched IH] using rev_ind; intros s Hrun.
  - unfold run, enter in Hrun. simpl in Hrun.
    destruct (negb (loop (args L)) || in_wake_asr (stop_after (args L)));
      inversion Hrun; subst s.
    + apply start_single_Barge, Flags_init.
    + apply start_request_Barge, Flags_init.
  - rewrite run_snoc in Hrun.
    destruct (step_Running_inv _ _ _ _ Hrun) as [s0 E0].
    rewrite E0 in Hrun. specialize (IH _ E0).
    destruct ev as [cs|]; [|discriminate].
    apply step_Complete_Running in Hrun as [_ Hrun].
    eapply resume_Barge; eauto using run_Inv.
Qed.

(** X6.  [Task.cancel] is called on response tasks only, never on a
    request or on a directly awaited invocation; and the response in the
    slot has been asked to cancel exactly when the request is already
    done, that is, when [main] waits for the response alone. *)
Theorem only_responses_are_asked_to_cancel h a sched s :
  main h a sched = Running s ->
  (forall i, In (Cancel i) (trace s) ->
     role_of (tasks s) i = Some Response) /\
  (forall i k, tasks s !! i = Some k -> cancel_requested k = true ->
     role k = Response) /\
  (forall rq t aws, at_ s = AwaitWait rq (Some t) aws ->
     (In (Cancel t) (trace s) <-> is_done (tasks s) rq = true)).
Proof.
  intros Hm. destruct (main_setup _ _ _ _ Hm) as (L & _ & Hrun).
  destruct (run_Barge _ _ _ Hrun) as [B1 B2 B3].
  split; [|split].
  - intros i Hi. apply B1, B2, Hi.
  - intros i k Hk Hc.
    assert (H : cancel_flag (tasks s) i = true).
    { unfold cancel_flag. now rewrite Hk. }
    apply B1 in H. unfold role_of in H. rewrite Hk in H. simpl in H.
    congruence.
  - intros rq t aws Hat. rewrite B2, (B3 _ _ _ Hat). tauto.
Qed.

Lemma only_responses_are_asked_to_cancel_witness :
  let s := state_of (main host_ok args_loop sched_barge_in) in
  (forall i, In (Cancel i) (trace s) ->
     role_of (tasks s) i = Some Response) /\
  (forall i k, tasks s !! i = Some k -> cancel_requested k = true ->
     role k = Response) /\
  (forall rq t aws, at_ s = AwaitWait rq (Some t) aws ->
     (In (Cancel t) (trace s) <-> is_done (tasks s) rq = true)).
Proof.
  apply (only_responses_are_asked_to_cancel host_ok args_loop
           sched_barge_in).
  vm_compute. reflexivity.
Defined.

(** ** What follows a request (lines 169-189) *)

Lemma kwargs_of_advances (ts ts' : list Task) (i : nat) :
  Forall2 advances ts ts' -> kwargs_of ts' i = kwargs_of ts i.
Proof.
  intros Hadv. unfold kwargs_of. destruct (ts !! i) as [k|] eqn:E.
  - destruct (advances_lookup _ _ Hadv _ _ E) as (k' & -> & (_ & K & _)).
    simpl. now rewrite K.
  - now rewrite (advances_lookup_None _ _ Hadv _ E).
Qed.

Lemma kwargs_of_cancel (ts : list Task) (t i : nat) :
  kwargs_of (alter request_cancel t ts) i = kwargs_of ts i.
Proof.
  unfold kwargs_of.
  destruct (lookup_request_cancel ts t i)
    as [[-> ->]|(k & k' & -> & -> & _ & K & _)]; simpl; congruence.
Qed.

Lemma kwargs_of_app_l (ts : list Task) (k : Task) (i : nat) :
  i < length ts -> kwargs_of (ts ++ [k]) i = kwargs_of ts i.
Proof. intros H. unfold kwargs_of. now rewrite lookup_app_l. Qed.

Lemma follows_keep L (ts ts' : list Task) (i : nat) :
  status_of ts' i = status_of ts i ->
  role_of ts' (S i) = role_of ts (S i) ->
  kwargs_of ts' (S i) = kwargs_of ts (S i) ->
  follows L ts i -> follows L ts' i.
Proof.
  intros Hs Hr Hk (r & Hres & H). exists r. split.
  - unfold result. now rewrite Hs.
  - now rewrite Hr, Hk.
Qed.

Lemma Turns_keep L s s' :
  current s' = current s ->
  (forall i, role_of (tasks s') i = role_of (tasks s) i) ->
  (forall i, kwargs_of (tasks s') i = kwargs_of (tasks s) i) ->
  (forall i, is_done (tasks s) i = true ->
     status_of (tasks s') i = status_of (tasks s) i) ->
  Turns L s -> Turns L s'.
Proof.
  intros Hc Hr Hk Hs HT i Hi Hrole. rewrite Hc in Hi. rewrite Hr in Hrole.
  pose proof (HT i Hi Hrole) as HF.
  apply (follows_keep L (tasks s)); auto.
  destruct HF as (r & Hres & _). eauto using result_Ok_done.
Qed.

Lemma Turns_deliver L s cs :
  Turns L s -> Turns L (set_tasks (deliver cs (tasks s)) s).
Proof.
  pose proof (deliver_advances cs (tasks s)) as Hadv.
  apply Turns_keep; simpl_state; auto.
  - intros i. now apply advances_role_of.
  - intros i. now apply kwargs_of_advances.
  - intros i. now apply advances_done.
Qed.

(** Lines 169-189 and 131-149: what is started, and in which order. *)
Lemma after_wait_tasks L rq s s' :
  after_wait L rq None s = Running s' -> length (tasks s) = S rq ->
  exists r, result (tasks s) rq = Ok r /\
    match pr_asr_transcript r with
    | Some _ =>
        tasks s' =
          (tasks s ++ [mkTask Response (response_kwargs L r) false Pending])
          ++ [mkTask Request (request_kwargs L) false Pending] /\
        current s' = S (S rq)
    | None =>
        tasks s' =
          tasks s ++ [mkTask Request (request_kwargs L) false Pending] /\
        current s' = S rq
    end.
Proof.
  intros Haw Hlen. unfold after_wait in Haw.
  destruct (result (tasks s) rq) as [r|e]; [|discriminate].
  exists r. split; [reflexivity|].
  destruct (pr_asr_transcript r) as [tr|]; inversion Haw; subst s';
    unfold start_request; simpl_state.
  - split; [reflexivity|]. rewrite length_app, Hlen. simpl. lia.
  - split; [reflexivity|]. exact Hlen.
Qed.

Lemma after_wait_Turns L rq s s' :
  length (tasks s) = S rq ->
  role_of (tasks s) rq = Some Request ->
  (forall i, i < rq -> role_of (tasks s) i = Some Request ->
     follows L (tasks s) i) ->
  after_wait L rq None s = Running s' ->
  Turns L s'.
Proof.
  intros Hlen Hrole HT Haw.
  destruct (after_wait_tasks _ _ _ _ Haw Hlen) as (r & Hres & H).
  destruct (pr_asr_transcript r) as [tr|] eqn:Htr; destruct H as [Ets Ec];
    intros i Hi Hri; rewrite Ec in Hi; rewrite Ets in *.
  - set (k1 := mkTask Response _ _ _) in *.
    set (k2 := mkTask Request _ _ _) in *.
    assert (Hl1 : length (tasks s ++ [k1]) = S (S rq)).
    { rewrite length_app, Hlen. simpl. lia. }
    destruct (decide (i = S rq)) as [->|Hne1].
    { rewrite role_of_app_l in Hri by lia.
      rewrite <- Hlen in Hri. rewrite role_of_app_new in Hri.
      discriminate. }
    destruct (decide (i = rq)) as [->|Hne2].
    + exists r. split.
      * unfold result. rewrite !status_of_app_l by lia. exact Hres.
      * rewrite Htr. unfold kwargs_of.
        rewrite role_of_app_l, lookup_app_l by lia.
        rewrite <- Hlen.
        now rewrite role_of_app_new, lookup_app_new.
    + rewrite !role_of_app_l in Hri by lia.
      apply (follows_keep L (tasks s)); [| | |apply HT; auto; lia].
      * rewrite !status_of_app_l by lia. reflexivity.
      * rewrite !role_of_app_l by lia. reflexivity.
      * rewrite !kwargs_of_app_l by lia. reflexivity.
  - set (k2 := mkTask Request _ _ _) in *.
    destruct (decide (i = rq)) as [->|Hne2].
    + exists r. split.
      * unfold result. rewrite status_of_app_l by lia. exact Hres.
      * rewrite Htr. rewrite <- Hlen. now rewrite role_of_app_new.
    + rewrite role_of_app_l in Hri by lia.
      apply (follows_keep L (tasks s)); [| | |apply HT; auto; lia].
      * rewrite status_of_app_l by lia. reflexivity.
      * rewrite role_of_app_l by lia. reflexivity.
      * rewrite kwargs_of_app_l by lia. reflexivity.
Qed.

Lemma resume_Turns L s cs s' :
  Inv L s -> Turns L s ->
  resume L (set_tasks (deliver cs (tasks s)) s) = Running s' ->
  Turns L s'.
Proof.
  intros HI HT Hrun.
  pose proof (deliver_advances cs (tasks s)) as Hadv.
  pose proof (inv_shape _ _ HI) as Hshape.
  pose proof (inv_length _ _ HI) as Hlen.
  pose proof (Turns_deliver L s cs HT) as HTd.
  set (sd := set_tasks (deliver cs (tasks s)) s) in *.
  assert (Hlen' : length (tasks sd) = S (current s)).
  { unfold sd. simpl_state. now rewrite (advances_length _ _ Hadv). }
  assert (Hrole : forall i, role_of (tasks sd) i = role_of (tasks s) i).
  { intros i. unfold sd. simpl_state. now apply advances_role_of. }
  assert (Haw : forall s1, tasks s1 = tasks sd ->
            role_of (tasks s) (current s) = Some Request ->
            after_wait L (current s) None s1 = Running s' -> Turns L s').
  { intros s1 E Hr H.
    apply (after_wait_Turns L (current s) s1 s'); auto; rewrite E; auto.
    now rewrite Hrole. }
  unfold Turns, shape, current in *.
  destruct (at_ s) as [c|rq rs aws] eqn:Hat.
  - destruct Hshape as [Hr _].
    unfold resume in Hrun. change (at_ sd) with (at_ s) in Hrun.
    rewrite Hat in Hrun. unfold on_await in Hrun.
    change (at_ sd) with (at_ s) in HTd. rewrite Hat in HTd.
    destruct (status_of (tasks sd) c) as [|o].
    + inversion Hrun; subst s'. change (at_ sd) with (at_ s).
      rewrite Hat. exact HTd.
    + destruct (result (tasks sd) c) as [r|e]; [|discriminate].
      assert (Hnew : forall k i, i < S c ->
                role_of (tasks sd ++ [k]) i = Some Request ->
                follows L (tasks sd ++ [k]) i).
      { intros k i Hi Hri. rewrite role_of_app_l in Hri by lia.
        destruct (decide (i = c)) as [->|Hne].
        { rewrite Hrole, Hr in Hri. discriminate. }
        apply (follows_keep L (tasks sd)); [| | |apply HTd; auto; lia].
        - rewrite status_of_app_l by lia. reflexivity.
        - rewrite role_of_app_l by lia. reflexivity.
        - rewrite kwargs_of_app_l by lia. reflexivity. }
      destruct (negb (loop (args L))); inversion Hrun; subst s';
        unfold start_request, start_single; simpl_state;
        rewrite Hlen'; apply Hnew.
  - unfold sd in Hrun. rewrite (resume_wait L s cs _ _ _ HI Hat) in Hrun.
    cbv zeta in Hrun. fold sd in Hrun.
    change (at_ sd) with (at_ s) in HTd. rewrite Hat in HTd.
    destruct Hshape as [Hr Hshape].
    destruct rs as [t|].
    + destruct (is_done (tasks sd) t) eqn:Hdt.
      * destruct (response_done t sd) as [s1|e] eqn:Hrd; [|discriminate].
        destruct (response_done_flags _ _ _ Hrd) as (E1 & _).
        destruct (is_done (tasks sd) rq).
        -- now apply (Haw s1).
        -- inversion Hrun; subst s'. simpl_state. rewrite E1. exact HTd.
      * destruct (is_done (tasks sd) rq).
        -- destruct (is_done (tasks s) rq); inversion Hrun; subst s'.
           ++ change (at_ sd) with (at_ s). rewrite Hat. exact HTd.
           ++ simpl_state. intros i Hi Hri. rewrite role_of_cancel in Hri.
              apply (follows_keep L (tasks sd)); [| | |now apply HTd].
              ** apply status_of_cancel.
              ** apply role_of_cancel.
              ** apply kwargs_of_cancel.
        -- inversion Hrun; subst s'. change (at_ sd) with (at_ s).
           rewrite Hat. exact HTd.
    + destruct (is_done (tasks sd) rq).
      * now apply (Haw sd).
      * inversion Hrun; subst s'. change (at_ sd) with (at_ s).
        rewrite Hat. exact HTd.
Qed.

Lemma run_Turns L sched s : run L sched = Running s -> Turns L s.
Proof.
  revert s. induction sched as [|ev sched IH] using rev_ind; intros s Hrun.
  - unfold run, enter in Hrun. simpl in Hrun.
    destruct (negb (loop (args L)) || in_wake_asr (stop_after (args L)));
      inversion Hrun; subst s; intros i Hi;
      unfold current, start_single, start_request in Hi; simpl in Hi; lia.
  - rewrite run_snoc in Hrun.
    destruct (step_Running_inv _ _ _ _ Hrun) as [s0 E0].
    rewrite E0 in Hrun. specialize (IH _ E0).
    destruct ev as [cs|]; [|discriminate].
    apply step_Complete_Running in Hrun as [_ Hrun].
    eapply resume_Turns; eauto using run_Inv.
Qed.

(** X11.  Every request whose completion has been processed had returned
    a result, and that result decided what was started next: a response
    with the detection and the transcript of that result if it carries a
    transcript, the next request if it carries none. *)
Theorem a_transcript_starts_a_response h a L sched s i :
  setup h a = Ok L -> main h a sched = Running s ->
  i < current s -> role_of (tasks s) i = Some Request ->
  exists r, result (tasks s) i = Ok r /\
    match pr_asr_transcript r with
    | Some _ =>
        role_of (tasks s) (S i) = Some Response /\
        kwargs_of (tasks s) (S i) = Some (response_kwargs L r)
    | None => role_of (tasks s) (S i) = Some Request
    end.
Proof.
  intros HL Hm Hi Hr. rewrite (main_Ok _ _ _ _ HL) in Hm.
  exact (run_Turns L sched s Hm i Hi Hr).
Qed.

Lemma a_transcript_starts_a_response_witness :
  exists r,
    result (tasks (state_of (main host_ok args_loop sched_cancelled))) 2 =
      Ok r /\
    match pr_asr_transcript r with
    | Some _ =>
        role_of (tasks (state_of (main host_ok args_loop sched_cancelled)))
          3 = Some Response /\
        kwargs_of (tasks (state_of (main host_ok args_loop sched_cancelled)))
          3 = Some (response_kwargs locals_loop r)
    | None =>
        role_of (tasks (state_of (main host_ok args_loop sched_cancelled)))
          3 = Some Request
    end.
Proof.
  apply (a_transcript_starts_a_response host_ok args_loop locals_loop
           sched_cancelled
           (state_of (main host_ok args_loop sched_cancelled)) 2);
    vm_compute; try reflexivity.
  lia.
Defined.

(** ** The first loop kept running (lines 107-127) *)

Lemma run_Repeat L sched s :
  loop (args L) = true -> in_wake_asr (stop_after (args L)) = true ->
  run L sched = Running s -> Repeat s.
Proof.
  intros Hloop Hwa. revert s.
  induction sched as [|ev sched IH] using rev_ind; intros s Hrun.
  - unfold run, enter in Hrun. rewrite Hloop, Hwa in Hrun. simpl in Hrun.
    inversion Hrun; subst s. exists 0. split; [reflexivity|]. split.
    + intros i Hi. lia.
    + intros i Hi. unfold start_single in *. simpl in *.
      destruct i as [|i]; [reflexivity|lia].
  - rewrite run_snoc in Hrun.
    destruct (step_Running_inv _ _ _ _ Hrun) as [s0 E0].
    rewrite E0 in Hrun. destruct (IH _ E0) as (c & Hat & Hret & Hdir).
    pose proof (run_Inv _ _ _ E0) as HI.
    pose proof (inv_length _ _ HI) as Hlen.
    unfold current in Hlen. rewrite Hat in Hlen.
    destruct ev as [cs|]; [|discriminate].
    apply step_Complete_Running in Hrun as [_ Hrun].
    pose proof (deliver_advances cs (tasks s0)) as Hadv.
    set (sd := set_tasks (deliver cs (tasks s0)) s0) in *.
    assert (Hlen' : length (tasks sd) = S c).
    { unfold sd. simpl_state. now rewrite (advances_length _ _ Hadv). }
    assert (Hret' : forall i, i < c -> exists r, result (tasks sd) i = Ok r).
    { intros i Hi. destruct (Hret i Hi) as [r Hr]. exists r.
      unfold sd. simpl_state.
      rewrite (advances_result_done _ _ Hadv); eauto using result_Ok_done. }
    assert (Hdir' : forall i, i < length (tasks sd) ->
              role_of (tasks sd) i = Some Direct).
    { intros i Hi. unfold sd in *. simpl_state.
      rewrite (advances_role_of _ _ Hadv). apply Hdir. lia. }
    unfold resume in Hrun. change (at_ sd) with (at_ s0) in Hrun.
    rewrite Hat in Hrun. unfold on_await in Hrun.
    destruct (status_of (tasks sd) c) as [|o].
    + inversion Hrun; subst s. exists c. auto.
    + destruct (result (tasks sd) c) as [r|e] eqn:Hres; [|discriminate].
      rewrite Hloop in Hrun. simpl in Hrun. inversion Hrun; subst s.
      unfold Repeat, start_single. simpl_state. rewrite Hlen'.
      exists (S c). split; [reflexivity|]. split.
      * intros i Hi. unfold result. rewrite status_of_app_l by lia.
        destruct (decide (i = c)) as [->|Hne]; [eauto|].
        apply Hret'. lia.
      * intros i Hi. rewrite length_app, Hlen' in Hi. simpl in Hi.
        destruct (decide (i = S c)) as [->|Hne].
        -- rewrite <- Hlen'. now rewrite role_of_app_new.
        -- rewrite role_of_app_l by lia. apply Hdir'. lia.
Qed.

Lemma records_direct (ts : list Task) (n : nat) :
  (forall i, i < n -> role_of ts i = Some Direct) ->
  (forall i, i < n -> exists r, result ts i = Ok r) ->
  map Ok (records ts n) = map (result ts) (seq 0 n).
Proof.
  intros Hd Hr. induction n as [|n IH]; [reflexivity|].
  rewrite records_S, seq_S, !map_app, IH by auto. f_equal. simpl.
  destruct (Hr n ltac:(lia)) as [r Hn]. rewrite Hn.
  unfold record_of. rewrite Hd by lia.
  apply result_Ok_status in Hn. now rewrite Hn.
Qed.

(** X7.  With [--loop] and [--stop-after wake] or [asr], [main] stays in
    its first loop: every invocation is awaited directly with the
    arguments of lines 109-121, one after the other, none is ever asked to
    cancel, and [sys.stdout] holds the results of all invocations before
    the current one, in order. *)
Theorem loop_with_early_stop_is_sequential h a L sched s :
  setup h a = Ok L -> loop a = true -> in_wake_asr (stop_after a) = true ->
  main h a sched = Running s ->
  exists c,
    at_ s = AwaitCoroutine c /\ length (tasks s) = S c /\
    status_of (tasks s) c = Pending /\
    (forall i k, tasks s !! i = Some k ->
       role k = Direct /\ kwargs k = single_kwargs L /\
       cancel_requested k = false) /\
    map Ok (stdout s) = map (result (tasks s)) (seq 0 c).
Proof.
  intros HL Hloop Hwa Hm.
  destruct (setup_locals _ _ _ HL) as (Ha & _).
  pose proof (main_reach _ _ _ _ _ HL Hm) as HI.
  rewrite (main_Ok _ _ _ _ HL) in Hm.
  destruct (run_Repeat L sched s) as (c & Hat & Hret & Hdir);
    [congruence|congruence|assumption|].
  pose proof (run_Barge _ _ _ Hm) as HB.
  pose proof (inv_length _ _ HI) as Hlen.
  pose proof (inv_shape _ _ HI) as Hshape.
  pose proof (Inv_stdout L s HI) as Hout.
  unfold current, shape in *. rewrite Hat in *.
  destruct Hshape as [_ Hp].
  exists c. split; [reflexivity|]. split; [exact Hlen|]. split; [exact Hp|].
  split.
  - intros i k Hk.
    assert (Hi : i < length (tasks s)) by (eapply lookup_lt_Some; eauto).
    pose proof (Hdir i Hi) as Hr. unfold role_of in Hr. rewrite Hk in Hr.
    simpl in Hr. inversion Hr as [Hr'].
    split; [reflexivity|]. split.
    + pose proof (mid_kwargs _ _ _ (inv_mid _ _ HI) i k Hk) as H.
      now rewrite Hr' in H.
    + destruct (cancel_requested k) eqn:Hc; [|reflexivity].
      assert (H : cancel_flag (tasks s) i = true).
      { unfold cancel_flag. now rewrite Hk. }
      apply (barge_role _ HB) in H. unfold role_of in H. rewrite Hk in H.
      simpl in H. congruence.
  - rewrite Hout. apply records_direct; auto.
    intros i Hi. apply Hdir. lia.
Qed.

Lemma loop_with_early_stop_is_sequential_witness :
  exists c,
    at_ (state_of (main host_ok args_loop_asr sched_three_asr)) =
      AwaitCoroutine c /\
    length (tasks (state_of (main host_ok args_loop_asr sched_three_asr))) =
      S c /\
    status_of (tasks (state_of (main host_ok args_loop_asr sched_three_asr)))
      c = Pending /\
    (forall i k,
       tasks (state_of (main host_ok args_loop_asr sched_three_asr)) !! i =
         Some k ->
       role k = Direct /\ kwargs k = single_kwargs locals_loop_asr /\
       cancel_requested k = false) /\
    map Ok (stdout (state_of (main host_ok args_loop_asr sched_three_asr))) =
    map (result
           (tasks (state_of (main host_ok args_loop_asr sched_three_asr))))
        (seq 0 c).
Proof.
  apply (loop_with_early_stop_is_sequential host_ok args_loop_asr
           locals_loop_asr sched_three_asr);
    vm_compute; reflexivity.
Defined.

(** ** Options that change nothing (lines 71-103) *)

Section SameInvocations.
Variables L L' : Locals.
Hypothesis Hsame : same_invocations L L'.

Lemma same_single_kwargs : single_kwargs L = single_kwargs L'.
Proof. exact (proj1 Hsame). Qed.

Lemma same_loop : loop (args L) = loop (args L').
Proof. exact (proj2 Hsame). Qed.

Lemma same_request_kwargs : request_kwargs L = request_kwargs L'.
Proof.
  pose proof same_single_kwargs as H. unfold single_kwargs in H.
  unfold request_kwargs. congruence.
Qed.

Lemma same_response_kwargs r : response_kwargs L r = response_kwargs L' r.
Proof.
  pose proof same_single_kwargs as H. unfold single_kwargs in H.
  unfold response_kwargs. congruence.
Qed.

Lemma same_stop_after : stop_after (args L) = stop_after (args L').
Proof.
  pose proof same_single_kwargs as H. unfold single_kwargs in H.
  congruence.
Qed.

Lemma same_start_single s : start_single L s = start_single L' s.
Proof. unfold start_single. now rewrite same_single_kwargs. Qed.

Lemma same_start_request rs s : start_request L rs s = start_request L' rs s.
Proof. unfold start_request. now rewrite same_request_kwargs. Qed.

Lemma same_after_wait rq rs s : after_wait L rq rs s = after_wait L' rq rs s.
Proof.
  unfold after_wait. destruct (result (tasks s) rq) as [r|e]; [|reflexivity].
  destruct (pr_asr_transcript r).
  - rewrite same_response_kwargs. unfold spawn. cbv beta iota zeta.
    now rewrite same_start_request.
  - now rewrite same_start_request.
Qed.

Lemma same_on_wait rq rs aws s : on_wait L rq rs aws s = on_wait L' rq rs aws s.
Proof.
  unfold on_wait. cbv zeta.
  destruct (List.filter (is_done (tasks s)) aws); [reflexivity|].
  match goal with
  | |- match ?x with Ok _ => _ | Err _ => _ end = _ =>
      destruct x as [[s1 rt1]|e]; [|reflexivity]
  end.
  destruct (List.filter _ aws); [apply same_after_wait|reflexivity].
Qed.

Lemma same_on_await c s : on_await L c s = on_await L' c s.
Proof.
  unfold on_await. destruct (status_of (tasks s) c); [reflexivity|].
  destruct (result (tasks s) c); [|reflexivity].
  now rewrite same_loop, same_start_request, same_start_single.
Qed.

Lemma same_step m ev : step L m ev = step L' m ev.
Proof.
  destruct m as [s|e s]; [|reflexivity].
  destruct ev as [cs|]; [|reflexivity]. simpl.
  destruct (interrupted_by cs (tasks s)); [reflexivity|]. unfold resume.
  destruct (at_ _); [apply same_on_await|apply same_on_wait].
Qed.

Lemma same_run sched : run L sched = run L' sched.
Proof.
  unfold run.
  assert (E : enter L = enter L').
  { unfold enter.
    now rewrite same_loop, same_stop_after, same_start_single,
      same_start_request. }
  rewrite E. generalize (enter L'). clear E.
  induction sched as [|ev sched IH]; intros m; simpl; [reflexivity|].
  now rewrite same_step, IH.
Qed.

End SameInvocations.

Lemma truthy_idem o : truthy (truthy o) = truthy o.
Proof.
  destruct o as [s|]; simpl; [|reflexivity].
  destruct (String.eqb s EmptyString) eqn:E; simpl; [reflexivity|].
  now rewrite E.
Qed.

(** Two argument sets for which the set-up builds the same pre-supplied
    results behave alike. *)
Lemma main_same h a a' sched :
  pipeline a' = pipeline a -> stop_after a' = stop_after a ->
  samples_per_chunk a' = samples_per_chunk a ->
  asr_chunks_to_buffer a' = asr_chunks_to_buffer a ->
  loop a' = loop a -> config a' = config a ->
  truthy (wake_name a') = truthy (wake_name a) ->
  open_opt h (asr_wav a') = open_opt h (asr_wav a) ->
  truthy (asr_text a') = truthy (asr_text a) ->
  load_intent h (intent_json a') = load_intent h (intent_json a) ->
  truthy (handle_text a') = truthy (handle_text a) ->
  open_opt h (tts_wav a') = open_opt h (tts_wav a) ->
  main h a' sched = main h a sched.
Proof.
  intros Hp Hs Hc Hb Hl Hcfg Hw Hwav Ht Hi Hh Htts.
  unfold main, setup. rewrite Hw, Hwav, Ht, Hi, Hh, Htts, Hcfg.
  destruct (open_opt h (asr_wav a)) as [wav|e]; [|reflexivity].
  destruct (load_intent h (intent_json a)) as [ir|e]; [|reflexivity].
  destruct (open_opt h (tts_wav a)) as [tts|e]; [|reflexivity].
  destruct (rhasspy_load h (config a)) as [rh|e]; [|reflexivity].
  simpl. apply same_run. split; simpl; [|assumption].
  unfold single_kwargs. simpl. congruence.
Qed.

(** X2.  An option given as the empty string is the option not given:
    under every schedule [main] behaves the same, step for step, whether
    [--wake-name], [--asr-wav], [--asr-text], [--intent-json],
    [--handle-text] and [--tts-wav] are empty or absent (an empty file
    name is not opened, empty JSON is not parsed). *)
Theorem empty_options_are_absent h a sched :
  main h (blank a) sched = main h a sched.
Proof.
  apply main_same; try reflexivity; simpl;
    try apply truthy_idem.
  - unfold open_opt. now rewrite truthy_idem.
  - unfold load_intent. now rewrite truthy_idem.
  - unfold open_opt. now rewrite truthy_idem.
Qed.

(** X3.  Intent JSON that parses to an event which is neither an intent
    nor a not-recognized event is dropped without an error: [main]
    behaves as if [--intent-json] had not been given. *)
Theorem unknown_intent_event_is_ignored h a j e sched :
  intent_json a = Some j ->
  json_loads_event h j = Ok e ->
  intent_is_type h (ev_type e) = false ->
  not_recognized_is_type h (ev_type e) = false ->
  main h a sched = main h (without_intent_json a) sched.
Proof.
  intros Hj He Hi Hn. apply main_same; try reflexivity. simpl.
  rewrite Hj. unfold load_intent.
  destruct (truthy (Some j)) as [s|] eqn:Et; [|reflexivity].
  assert (s = j) as ->.
  { simpl in Et. destruct (String.eqb j EmptyString); congruence. }
  rewrite He. simpl. now rewrite Hi, Hn.
Qed.

Lemma unknown_intent_event_is_ignored_witness :
  main host_other_event args_loop_json sched_first_turn =
  main host_other_event (without_intent_json args_loop_json)
    sched_first_turn.
Proof.
  apply (unknown_intent_event_is_ignored host_other_event args_loop_json
           "{...}" (mkEvent "transcript" "{...}") sched_first_turn);
    reflexivity.
Defined.

(** ** What each kind of invocation is given (lines 109-121, 132-141,
    177-188) *)

(** X10.  Every invocation gets the loaded configuration, the pipeline
    name and the two chunk settings of the arguments.  A directly awaited
    invocation gets all six pre-supplied results and the stop-after point
    of the arguments.  A request invocation never gets the pre-supplied
    intent, handle result or TTS WAV.  A response invocation never gets
    the ASR WAV input, always gets a transcript, and gets the pre-supplied
    intent, handle result and TTS WAV with the stop-after point of the
    arguments. *)
Theorem each_role_gets_its_share_of_the_presupplied_results
    h a L sched s i k :
  setup h a = Ok L -> main h a sched = Running s ->
  tasks s !! i = Some k ->
  (ra_rhasspy (kwargs k) = rhasspy L /\
   ra_pipeline (kwargs k) = pipeline a /\
   ra_samples_per_chunk (kwargs k) = samples_per_chunk a /\
   ra_asr_chunks_to_buffer (kwargs k) = asr_chunks_to_buffer a) /\
  match role k with
  | Direct => kwargs k = single_kwargs L
  | Request =>
      ra_intent_result (kwargs k) = None /\
      ra_handle_result (kwargs k) = None /\
      ra_tts_wav_in (kwargs k) = None
  | Response =>
      ra_asr_wav_in (kwargs k) = None /\
      ra_asr_transcript (kwargs k) <> None /\
      ra_intent_result (kwargs k) = intent_result L /\
      ra_handle_result (kwargs k) = handle_result L /\
      ra_tts_wav_in (kwargs k) = tts_wav_in L /\
      ra_stop_after (kwargs k) = stop_after a
  end.
Proof.
  intros HL Hm Hk.
  pose proof (main_reach _ _ _ _ _ HL Hm) as HI.
  destruct (setup_locals _ _ _ HL) as (Ha & _).
  pose proof (mid_kwargs _ _ _ (inv_mid _ _ HI) i k Hk) as H.
  destruct (role k).
  - rewrite H. simpl. rewrite Ha. auto.
  - rewrite H. simpl. rewrite Ha. auto 10.
  - destruct H as (r & _ & _ & _ & Htr & ->). simpl. rewrite Ha. auto 10.
Qed.

Lemma each_role_gets_its_share_of_the_presupplied_results_witness :
  (ra_rhasspy (kwargs later_request) = rhasspy
     (mkLocals args_loop_text None None (Some (mkTranscript "hello"))
        None None None (mkRhasspy "config")) /\
   ra_pipeline (kwargs later_request) = pipeline args_loop_text /\
   ra_samples_per_chunk (kwargs later_request) =
     samples_per_chunk args_loop_text /\
   ra_asr_chunks_to_buffer (kwargs later_request) =
     asr_chunks_to_buffer args_loop_text) /\
  match role later_request with
  | Direct =>
      kwargs later_request =
      single_kwargs
        (mkLocals args_loop_text None None (Some (mkTranscript "hello"))
           None None None (mkRhasspy "config"))
  | Request =>
      ra_intent_result (kwargs later_request) = None /\
      ra_handle_result (kwargs later_request) = None /\
      ra_tts_wav_in (kwargs later_request) = None
  | Response =>
      ra_asr_wav_in (kwargs later_request) = None /\
      ra_asr_transcript (kwargs later_request) <> None /\
      ra_intent_result (kwargs later_request) = None /\
      ra_handle_result (kwargs later_request) = None /\
      ra_tts_wav_in (kwargs later_request) = None /\
      ra_stop_after (kwargs later_request) = stop_after args_loop_text
  end.
Proof.
  apply (each_role_gets_its_share_of_the_presupplied_results host_ok
           args_loop_text
           (mkLocals args_loop_text None None (Some (mkTranscript "hello"))
              None None None (mkRhasspy "config"))
           sched_two_turns
           (state_of (main host_ok args_loop_text sched_two_turns))
           2 later_request);
    vm_compute; reflexivity.
Defined.

(** ** Request and response found done by the same wait *)

(** X12.  When the request and the response are both done when
    [asyncio.wait] returns and both have returned a result, the response
    is processed first (its result taken and printed), no cancellation is
    requested, and then the request: its result is taken and, without a
    transcript, printed and followed by the next request, with a
    transcript, followed by a new response and the next request. *)
Theorem both_done_response_then_request h a L sched s rq t cs r' r :
  setup h a = Ok L -> main h a sched = Running s ->
  at_ s = AwaitWait rq (Some t) [rq; t] ->
  status_of (deliver cs (tasks s)) t = Finished (Returned r') ->
  status_of (deliver cs (tasks s)) rq = Finished (Returned r) ->
  exists s',
    main h a (sched ++ [Complete cs]) = Running s' /\
    trace s' =
      trace s ++ [Consume t; Print r'; Consume rq] ++
      match pr_asr_transcript r with
      | None => [Print r; Spawn (S rq)]
      | Some _ => [Spawn (S rq); Spawn (S (S rq))]
      end /\
    at_ s' =
      match pr_asr_transcript r with
      | None => AwaitWait (S rq) None [S rq]
      | Some _ => AwaitWait (S (S rq)) (Some (S rq)) [S (S rq); S rq]
      end.
Proof.
  intros HL Hm Hat Ht Hr.
  pose proof (main_reach _ _ _ _ _ HL Hm) as HI.
  pose proof (deliver_advances cs (tasks s)) as Hadv.
  assert (Hlen : length (deliver cs (tasks s)) = S rq).
  { rewrite (advances_length _ _ Hadv), (inv_length _ _ HI).
    unfold current. now rewrite Hat. }
  destruct (Inv_slot L s t HI) as (_ & _ & _ & Hst & _).
  { unfold response_slot. now rewrite Hat. }
  rewrite (main_step _ _ _ _ _ cs HL Hm)
    by (apply (deliver_moved cs (tasks s) t); congruence).
  rewrite (resume_wait L s cs _ _ _ HI Hat). cbv zeta.
  change (tasks (set_tasks (deliver cs (tasks s)) s))
    with (deliver cs (tasks s)).
  unfold is_done. rewrite Ht, Hr, response_done_eq.
  change (tasks (set_tasks (deliver cs (tasks s)) s))
    with (deliver cs (tasks s)).
  rewrite Ht. unfold after_wait, result. simpl_state. rewrite Hr.
  destruct (pr_asr_transcript r) as [tr|].
  - eexists. split; [reflexivity|]. unfold start_request. simpl_state.
    rewrite !length_app, Hlen. simpl length. rewrite Nat.add_1_r.
    assert (E : status_of
                  ((deliver cs (tasks s) ++
                    [mkTask Response (response_kwargs L r) false Pending]) ++
                   [mkTask Request (request_kwargs L) false Pending])
                  (S rq) = Pending).
    { rewrite status_of_app_l by (rewrite length_app; simpl; lia).
      rewrite <- Hlen. now rewrite status_of_app_new. }
    unfold is_done. rewrite E. simpl. rewrite <- !app_assoc. auto.
  - eexists. split; [reflexivity|]. unfold start_request. simpl_state.
    rewrite Hlen. rewrite <- !app_assoc. auto.
Qed.

Lemma both_done_response_then_request_witness :
  exists s',
    main host_ok args_loop
      (sched_first_turn ++
       [Complete [(1, Returned replied); (2, Returned silence)]]) =
      Running s' /\
    trace s' =
      trace (state_of (main host_ok args_loop sched_first_turn)) ++
      [Consume 1; Print replied; Consume 2] ++
      match pr_asr_transcript silence with
      | None => [Print silence; Spawn 3]
      | Some _ => [Spawn 3; Spawn 4]
      end /\
    at_ s' =
      match pr_asr_transcript silence with
      | None => AwaitWait 3 None [3]
      | Some _ => AwaitWait 4 (Some 3) [4; 3]
      end.
Proof.
  apply (both_done_response_then_request host_ok args_loop locals_loop
           sched_first_turn
           (state_of (main host_ok args_loop sched_first_turn)) 2 1
           [(1, Returned replied); (2, Returned silence)]);
    reflexivity.
Defined.
